(** * Memex search index utilities: a shallow embedding of
    [src/search/search-index/util.js] and the properties of its key codec,
    term extraction, scorer, lookups, range scans and write serializer. *)

From Stdlib Require Import Ascii String ZArith Lia Sorted SpecFloat.
From stdpp Require Import base decidable option list strings pretty.

Local Open Scope string_scope.
Local Open Scope list_scope.

(** ** The JavaScript values and containers the module works with *)

Module Js.

(** A thrown value (or the reason of a rejected promise).  [notFound] is the
    flag the store sets on the error of a [get] for a missing key. *)
Record error := Error { message : string; notFound : bool }.

(** The result of a call that may throw; an [async] function that rejects is
    a [Throw] as well. *)
Inductive Result (A : Type) : Type :=
| Ok (a : A)
| Throw (e : error).
Arguments Ok {A} a.
Arguments Throw {A} e.

Definition bind {A B} (r : Result A) (k : A -> Result B) : Result B :=
  match r with
  | Ok a => k a
  | Throw e => Throw e
  end.

Definition TypeError (msg : string) : error :=
  {| message := "TypeError: " +:+ msg; notFound := false |}.

(** [s.startsWith(p)], returning what follows the prefix. *)
Fixpoint strip_prefix (p s : string) : option string :=
  match p with
  | EmptyString => Some s
  | String a p' =>
      match s with
      | EmptyString => None
      | String b s' => if Ascii.eqb a b then strip_prefix p' s' else None
      end
  end.

Definition startsWith (p s : string) : bool :=
  match strip_prefix p s with Some _ => true | None => false end.

(** [s.endsWith(p)]: some suffix of [s] is [p]. *)
Fixpoint endsWith (p s : string) : bool :=
  String.eqb p s ||
  match s with
  | EmptyString => false
  | String _ s' => endsWith p s'
  end.

(** [xs.map(f)] for a callback that may throw: the first exception ends it. *)
Fixpoint mapM {A B} (f : A -> Result B) (xs : list A) : Result (list B) :=
  match xs with
  | [] => Ok []
  | x :: xs' => bind (f x) (fun y => bind (mapM f xs') (fun ys => Ok (y :: ys)))
  end.

(** [c.toLowerCase()] on the ASCII range; other bytes are left as they are. *)
Definition lower_ascii (c : ascii) : ascii :=
  let n := Ascii.nat_of_ascii c in
  if (65 <=? n)%nat && (n <=? 90)%nat then Ascii.ascii_of_nat (n + 32) else c.

Fixpoint toLowerCase (s : string) : string :=
  match s with
  | EmptyString => EmptyString
  | String c s' => String (lower_ascii c) (toLowerCase s')
  end.

(** [content.split(sep)] for a string separator.  [skip] counts the
    characters of a separator occurrence still to be passed over, [cur] holds
    the piece being read, reversed. *)
Fixpoint split_go (sep : string) (skip : nat) (cur : string) (s : string)
  : list string :=
  match s with
  | EmptyString => [String.rev cur]
  | String c s' =>
      match skip with
      | S k => split_go sep k cur s'
      | O =>
          if startsWith sep s
          then String.rev cur :: split_go sep (String.length sep - 1) "" s'
          else split_go sep 0 (String c cur) s'
      end
  end.

Fixpoint chars (s : string) : list string :=
  match s with
  | EmptyString => []
  | String c s' => String c "" :: chars s'
  end.

Definition split_string (sep content : string) : list string :=
  match sep with
  | EmptyString => chars content
  | _ => split_go sep 0 "" content
  end.

(** A separator is a string or a regular expression; the latter is given by
    the pieces it splits a string into. *)
Inductive separator :=
| SepString (sep : string)
| SepRegExp (pieces : string -> list string).

Definition split (sep : separator) (content : string) : list string :=
  match sep with
  | SepString s => split_string s content
  | SepRegExp pieces => pieces content
  end.

(** [o[name]] on an object given as its own properties in insertion order;
    [None] is a missing property. *)
Fixpoint prop_lookup {A} (name : string) (o : list (string * A)) : option A :=
  match o with
  | [] => None
  | (n, a) :: o' => if String.eqb n name then Some a else prop_lookup name o'
  end.

(** The values the index stores and hands around. *)
#[warnings="-register-all"]
Inductive jsval :=
| JUndefined
| JNull
| JStr (s : string)
| JObj (props : list (string * jsval)).

Definition obj := list (string * jsval).

(** Structural equality; on the primitives, which is what keys and page
    identifiers are, it is the [SameValueZero] of [Map] and [Set]. *)
Fixpoint jsval_eqb (a b : jsval) : bool :=
  match a, b with
  | JUndefined, JUndefined => true
  | JNull, JNull => true
  | JStr s, JStr t => String.eqb s t
  | JObj p, JObj q =>
      (fix props_eqb (p q : list (string * jsval)) : bool :=
         match p, q with
         | [], [] => true
         | (k, v) :: p', (k', v') :: q' =>
             String.eqb k k' && jsval_eqb v v' && props_eqb p' q'
         | _, _ => false
         end) p q
  | _, _ => false
  end.

Section jsval_nested_ind.
Variable P : jsval -> Prop.
Hypothesis HUndefined : P JUndefined.
Hypothesis HNull : P JNull.
Hypothesis HStr : forall s, P (JStr s).
Hypothesis HObj : forall props, Forall (fun p => P (snd p)) props -> P (JObj props).

Fixpoint jsval_nested_ind (v : jsval) : P v :=
  match v with
  | JUndefined => HUndefined
  | JNull => HNull
  | JStr s => HStr s
  | JObj props =>
      HObj props
        ((fix all (l : list (string * jsval)) : Forall (fun p => P (snd p)) l :=
            match l with
            | [] => List.Forall_nil _
            | (k, w) :: l' =>
                @List.Forall_cons _ (fun p => P (snd p)) (k, w) l'
                  (jsval_nested_ind w) (all l')
            end) props)
  end.
End jsval_nested_ind.

(** [o.name]: [undefined] when the property is missing. *)
Definition obj_get (name : string) (o : obj) : jsval :=
  match prop_lookup name o with
  | Some v => v
  | None => JUndefined
  end.

(** [o.name = v]: an own property keeps its place, a new one goes last. *)
Fixpoint obj_set (name : string) (v : jsval) (o : obj) : obj :=
  match o with
  | [] => [(name, v)]
  | (n, w) :: o' =>
      if String.eqb n name then (n, v) :: o' else (n, w) :: obj_set name v o'
  end.

(** The rest of a destructuring [{ name, ...rest } = o]. *)
Definition obj_rest (name : string) (o : obj) : obj :=
  List.filter (fun p => negb (String.eqb (fst p) name)) o.

(** [{ ...o, ...more }]: the properties of [more] assigned onto [o], in order. *)
Definition obj_spread (o more : obj) : obj :=
  fold_left (fun acc p => obj_set (fst p) (snd p) acc) more o.

(** *** [Map]: entries in insertion order, one per key *)

Section JsMap.
Context {K V : Type} `{EqDecision K}.

Fixpoint map_get (k : K) (m : list (K * V)) : option V :=
  match m with
  | [] => None
  | (k', v) :: m' => if decide (k' = k) then Some v else map_get k m'
  end.

Definition map_has (k : K) (m : list (K * V)) : bool :=
  match map_get k m with Some _ => true | None => false end.

(** [m.set(k, v)]: the entry of an old key is overwritten where it stands, a
    new key is appended. *)
Fixpoint map_set (k : K) (v : V) (m : list (K * V)) : list (K * V) :=
  match m with
  | [] => [(k, v)]
  | (k', w) :: m' =>
      if decide (k' = k) then (k', v) :: m' else (k', w) :: map_set k v m'
  end.

Definition map_size (m : list (K * V)) : nat := length m.

Definition map_keys (m : list (K * V)) : list K := map fst m.

(** [new Map(entries)]. *)
Definition map_of_entries (entries : list (K * V)) : list (K * V) :=
  fold_left (fun m e => map_set (fst e) (snd e) m) entries [].

End JsMap.

Arguments map_size {K V} m : simpl never.
Arguments map_keys {K V} m : simpl never.

(** [Set]: elements in insertion order, each once. *)
Definition set_has {A} `{EqDecision A} (x : A) (s : list A) : bool :=
  bool_decide (x ∈ s).

(** *** Facts about these *)

Lemma mapM_Ok {A B} (f : A -> Result B) xs ys :
  mapM f xs = Ok ys -> Forall2 (fun x y => f x = Ok y) xs ys.
Proof.
  revert ys. induction xs as [|x xs IH]; cbn; intros ys H.
  - injection H as <-. constructor.
  - destruct (f x) as [y|e] eqn:Ex; cbn in H; [|discriminate].
    destruct (mapM f xs) as [ys'|e]; cbn in H; [|discriminate].
    injection H as <-. constructor; auto.
Qed.

Lemma mapM_Throw {A B} (f : A -> Result B) xs e :
  mapM f xs = Throw e -> exists x, x ∈ xs /\ f x = Throw e.
Proof.
  induction xs as [|x xs IH]; cbn; [discriminate|].
  destruct (f x) as [y|e'] eqn:Ex; cbn.
  - destruct (mapM f xs) as [ys'|e'']; cbn; [discriminate|].
    intros [= ->]. destruct IH as (x' & Hin & Hx'); [reflexivity|].
    exists x'. split; [now apply list_elem_of_further|assumption].
  - intros [= ->]. exists x. split; [apply list_elem_of_here|assumption].
Qed.

Lemma prop_lookup_app {A} name (o1 o2 : list (string * A)) :
  prop_lookup name (o1 ++ o2) =
  match prop_lookup name o1 with
  | Some a => Some a
  | None => prop_lookup name o2
  end.
Proof.
  induction o1 as [|[n a] o1 IH]; cbn; [reflexivity|].
  destruct (String.eqb n name); [reflexivity|exact IH].
Qed.

Lemma prop_lookup_None {A} name (o : list (string * A)) :
  prop_lookup name o = None <-> name ∉ map fst o.
Proof.
  induction o as [|[n a] o IH]; cbn.
  - split; [intros _ H; inversion H|reflexivity].
  - rewrite not_elem_of_cons. destruct (String.eqb_spec n name) as [->|Hne].
    + split; [discriminate|intros [[] _]; reflexivity].
    + rewrite IH. split; [intros ?; split; [congruence|assumption]|intros [_ ?]; assumption].
Qed.

Lemma prop_lookup_NoDup {A} name a (o : list (string * A)) :
  NoDup (map fst o) -> (name, a) ∈ o -> prop_lookup name o = Some a.
Proof.
  induction o as [|[n b] o IH]; cbn; intros Hnd Hin; [inversion Hin|].
  apply NoDup_cons in Hnd as [Hn Hnd].
  apply elem_of_cons in Hin as [[= -> ->]|Hin].
  - rewrite String.eqb_refl. reflexivity.
  - destruct (String.eqb_spec n name) as [->|Hne]; [|auto].
    exfalso. apply Hn. apply list_elem_of_In, in_map_iff.
    exists (name, a). split; [reflexivity|now apply list_elem_of_In].
Qed.

Lemma jsval_eqb_eq a b : jsval_eqb a b = true <-> a = b.
Proof.
  revert b. induction a as [| |s|props IH] using jsval_nested_ind;
    intros [| |t|q]; cbn; try (split; (discriminate || reflexivity)).
  - rewrite String.eqb_eq. split; congruence.
  - revert q. induction IH as [|[k v] p' Hv _ IHp]; intros [|[k' v'] q'];
      try (split; (discriminate || reflexivity)).
    cbn in Hv |- *.
    rewrite !andb_true_iff, String.eqb_eq, Hv, IHp.
    split; [intros [[-> ->] [= ->]]; reflexivity|intros [= -> -> ->]; auto].
Qed.

#[export] Instance jsval_eq_dec : EqDecision jsval.
Proof.
  intros a b. destruct (jsval_eqb a b) eqn:E.
  - left. apply jsval_eqb_eq, E.
  - right. intros H. apply jsval_eqb_eq in H. congruence.
Defined.

Section JsMapFacts.
Context {K V : Type} `{EqDecision K}.
Implicit Types (m : list (K * V)) (k : K) (v : V).

Lemma map_get_None k m : map_get k m = None <-> k ∉ map_keys m.
Proof.
  unfold map_keys. induction m as [|[k' w] m IH]; cbn.
  - split; [intros _ H; inversion H|reflexivity].
  - rewrite not_elem_of_cons. destruct (decide (k' = k)) as [->|Hne].
    + split; [discriminate|intros [[] _]; reflexivity].
    + rewrite IH. split; [intros ?; split; [congruence|assumption]|intros [_ ?]; assumption].
Qed.

Lemma map_get_set k v m k' :
  map_get k' (map_set k v m) = if decide (k = k') then Some v else map_get k' m.
Proof.
  induction m as [|[k0 w] m IH]; cbn.
  - destruct (decide (k = k')); reflexivity.
  - destruct (decide (k0 = k)) as [->|Hne]; cbn.
    + destruct (decide (k = k')); reflexivity.
    + rewrite IH. destruct (decide (k0 = k')) as [->|]; [|reflexivity].
      destruct (decide (k = k')); congruence.
Qed.

Lemma map_set_old k v m :
  k ∈ map_keys m ->
  map_keys (map_set k v m) = map_keys m /\ map_size (map_set k v m) = map_size m.
Proof.
  unfold map_size, map_keys. induction m as [|[k0 w] m IH]; cbn; [inversion 1|].
  intros [->|Hin]%elem_of_cons.
  - destruct (decide (k0 = k0)); [split; reflexivity|congruence].
  - destruct (decide (k0 = k)); cbn; [split; reflexivity|].
    destruct (IH Hin) as [-> ->]. split; reflexivity.
Qed.

Lemma map_set_new k v m :
  k ∉ map_keys m -> map_set k v m = m ++ [(k, v)].
Proof.
  unfold map_keys. induction m as [|[k0 w] m IH]; cbn; [reflexivity|].
  intros [Hne Hnin]%not_elem_of_cons.
  destruct (decide (k0 = k)); [congruence|]. rewrite IH; auto.
Qed.

Lemma map_set_middle k v w m1 m2 :
  k ∉ map_keys m1 -> map_set k v (m1 ++ (k, w) :: m2) = m1 ++ (k, v) :: m2.
Proof.
  unfold map_keys. induction m1 as [|[k0 w0] m1 IH]; cbn.
  - intros _. destruct (decide (k = k)); congruence.
  - intros [Hne Hnin]%not_elem_of_cons.
    destruct (decide (k0 = k)); [congruence|]. rewrite IH; auto.
Qed.

Lemma map_set_NoDup k v m : NoDup (map_keys m) -> NoDup (map_keys (map_set k v m)).
Proof.
  intros Hnd. destruct (decide (k ∈ map_keys m)) as [Hin|Hnin].
  - destruct (map_set_old k v m Hin) as [-> _]. exact Hnd.
  - rewrite (map_set_new k v m Hnin). unfold map_keys. rewrite map_app. cbn.
    apply NoDup_app. split; [exact Hnd|]. split.
    + intros x Hx [->|H']%elem_of_cons; [auto|inversion H'].
    + apply NoDup_singleton.
Qed.

Lemma map_of_entries_get (f : K -> V) (keys : list K) k :
  map_get k (map_of_entries (map (fun key => (key, f key)) keys)) =
  if decide (k ∈ keys) then Some (f k) else None.
Proof.
  unfold map_of_entries.
  assert (Hgen : forall m0,
    map_get k (fold_left (fun m e => map_set (fst e) (snd e) m)
                 (map (fun key => (key, f key)) keys) m0) =
    if decide (k ∈ keys) then Some (f k) else map_get k m0).
  { induction keys as [|k0 keys IH]; intros m0; cbn [map fold_left].
    - destruct (decide (k ∈ [])) as [Hin|]; [inversion Hin|reflexivity].
    - rewrite IH. cbn [fst snd]. rewrite map_get_set.
      destruct (decide (k ∈ keys)) as [Hin|Hnin].
      + rewrite decide_True; [reflexivity|now apply list_elem_of_further].
      + destruct (decide (k0 = k)) as [->|Hne].
        * rewrite decide_True; [reflexivity|apply list_elem_of_here].
        * rewrite decide_False; [reflexivity|].
          intros [->|Hin]%elem_of_cons; congruence. }
  rewrite Hgen.
  destruct (decide (k ∈ keys)); reflexivity.
Qed.

Lemma map_of_entries_keys (f : K -> V) (keys : list K) k :
  k ∈ map_keys (map_of_entries (map (fun key => (key, f key)) keys)) <-> k ∈ keys.
Proof.
  pose proof (map_get_None k
    (map_of_entries (map (fun key => (key, f key)) keys))) as Hnone.
  rewrite map_of_entries_get in Hnone.
  destruct (decide (k ∈ keys)) as [Hin|Hnin].
  - split; [auto|]. intros _.
    destruct (decide (k ∈ map_keys (map_of_entries (map (fun key => (key, f key)) keys))))
      as [|Hn]; [assumption|].
    apply Hnone in Hn. discriminate.
  - split; [|intros; contradiction]. intros Hk.
    destruct Hnone as [Hnone _]. exfalso. apply Hnone; auto.
Qed.

End JsMapFacts.

Lemma prop_lookup_obj_set name n v (o : obj) :
  prop_lookup name (obj_set n v o) =
  if String.eqb n name then Some v else prop_lookup name o.
Proof.
  induction o as [|[n0 w] o IH]; cbn [obj_set prop_lookup]; [reflexivity|].
  destruct (String.eqb_spec n0 n) as [->|Hne]; cbn [prop_lookup].
  - destruct (String.eqb n name); reflexivity.
  - rewrite IH. destruct (String.eqb_spec n0 name) as [->|]; [|reflexivity].
    destruct (String.eqb_spec n name); [congruence|reflexivity].
Qed.

(** In a spread the last assignment of a name wins. *)
Lemma prop_lookup_obj_spread name (o more : obj) :
  prop_lookup name (obj_spread o more) =
  match prop_lookup name (rev more) with
  | Some v => Some v
  | None => prop_lookup name o
  end.
Proof.
  unfold obj_spread. revert o.
  induction more as [|[n v] more IH]; intros o; [reflexivity|].
  cbn [fold_left fst snd rev]. rewrite IH, prop_lookup_app.
  destruct (prop_lookup name (rev more)); [reflexivity|].
  rewrite prop_lookup_obj_set. cbn [prop_lookup].
  destruct (String.eqb n name); reflexivity.
Qed.

End Js.

Import Js.

(** ** Key codec: [keyGen] and [removeKeyType] *)

Module KeyCodec.

(** The [keyGen] object: property name and encoder, in source order. *)
Definition keyGen : list (string * (string -> string)) :=
  [ ("domain", fun key => "domain/" +:+ key);
    ("tag", fun key => "tag/" +:+ key);
    ("url", fun key => "url/" +:+ key);
    ("term", fun key => "term/" +:+ key);
    ("title", fun key => "title/" +:+ key);
    ("visit", fun key => "visit/" +:+ key);
    ("bookmark", fun key => "bookmark/" +:+ key) ].

(** The alternatives of the regular expression
    [/^(term|title|visit|url|domain|tag|bookmark)\//], in its order. *)
Definition keyTypes : list string :=
  ["term"; "title"; "visit"; "url"; "domain"; "tag"; "bookmark"].

(** The match of the expression at the start of [key]: the first alternative
    that is followed by a slash there; the result is the rest of the key. *)
Fixpoint match_keyType (alts : list string) (key : string) : option string :=
  match alts with
  | [] => None
  | alt :: alts' =>
      match strip_prefix (alt +:+ "/") key with
      | Some rest => Some rest
      | None => match_keyType alts' key
      end
  end.

(** [key.replace(/^(...)\//, '')]. *)
Definition removeKeyType (key : string) : string :=
  match match_keyType keyTypes key with
  | Some rest => rest
  | None => key
  end.

Lemma app_String a p s : String a p +:+ s = String a (p +:+ s).
Proof. reflexivity. Qed.

Lemma strip_prefix_app p s : strip_prefix p (p +:+ s) = Some s.
Proof.
  induction p as [|a p IH]; [reflexivity|].
  rewrite app_String. cbn. rewrite Ascii.eqb_refl. exact IH.
Qed.

Lemma strip_prefix_Some p s r : strip_prefix p s = Some r -> s = p +:+ r.
Proof.
  revert s; induction p as [|a p IH]; intros s H.
  - cbn in H. injection H as ->. reflexivity.
  - destruct s as [|b s]; [discriminate|]. cbn in H.
    destruct (Ascii.eqb a b) eqn:E; [|discriminate].
    apply Ascii.eqb_eq in E as ->. rewrite app_String. f_equal. auto.
Qed.

Lemma startsWith_true p s : startsWith p s = true <-> exists r, s = p +:+ r.
Proof.
  unfold startsWith. split.
  - destruct (strip_prefix p s) eqn:E; [|discriminate].
    intros _. eexists. eapply strip_prefix_Some, E.
  - intros [r ->]. rewrite strip_prefix_app. reflexivity.
Qed.



Lemma removeKeyType_known alt s :
  alt ∈ keyTypes -> removeKeyType (alt +:+ "/" +:+ s) = s.
Proof.
  unfold keyTypes. intros H.
  repeat (apply elem_of_cons in H as [->|H]); try reflexivity.
  inversion H.
Qed.

(** C6: each of the seven namespaces term, title, domain, tag, url, visit
    and bookmark has an encoder in [keyGen], the encoder writes the namespace
    and a slash before the token, and [removeKeyType] gives the token back
    from the encoded key, whatever the token.  [keyGen] has no encoder for
    which the round trip fails. *)
Theorem removeKeyType_keyGen_roundtrip :
  (forall namespace,
      namespace ∈ ["term"; "title"; "domain"; "tag"; "url"; "visit"; "bookmark"] ->
      exists encode,
        prop_lookup namespace keyGen = Some encode /\
        forall token,
          encode token = namespace +:+ "/" +:+ token /\
          removeKeyType (encode token) = token) /\
  (forall namespace encode token,
      prop_lookup namespace keyGen = Some encode ->
      removeKeyType (encode token) = token).
Proof.
  split.
  - intros namespace H.
    repeat (apply elem_of_cons in H as [->|H]);
      try (eexists; split; [reflexivity|]; intros token; split; reflexivity).
    inversion H.
  - intros namespace encode token. unfold keyGen. cbn [prop_lookup].
    repeat (destruct (String.eqb _ namespace);
            [intros [= <-]; reflexivity|]).
    discriminate.
Qed.

Lemma removeKeyType_keyGen_roundtrip_witness :
  (exists encode,
      prop_lookup "bookmark" keyGen = Some encode /\
      encode "1512345678901" = "bookmark/1512345678901" /\
      removeKeyType (encode "1512345678901") = "1512345678901") /\
  (exists encode,
      prop_lookup "domain" keyGen = Some encode /\
      encode "term/x" = "domain/term/x" /\
      removeKeyType (encode "term/x") = "term/x").
Proof.
  destruct removeKeyType_keyGen_roundtrip as [Hseven _].
  split.
  - destruct (Hseven "bookmark") as (encode & Hget & Hrt).
    { apply (bool_decide_unpack _). vm_compute. exact I. }
    exists encode. split; [exact Hget|]. apply Hrt.
  - destruct (Hseven "domain") as (encode & Hget & Hrt).
    { apply (bool_decide_unpack _). vm_compute. exact I. }
    exists encode. split; [exact Hget|]. apply Hrt.
Defined.




End KeyCodec.

Import KeyCodec.

(** ** Term extraction: [extractContent] *)

Module Terms.

(** [keyGen[key](word.toLowerCase())]; calling a missing property throws. *)
Definition encode_word (key : string) (word : string) : Result string :=
  match prop_lookup key keyGen with
  | Some encode => Ok (encode (toLowerCase word))
  | None => Throw (TypeError "keyGen[key] is not a function")
  end.

(** [extractContent(content, { separator, key })].  The defaults of the two
    options ([DEFAULT_TERM_SEPARATOR], which the index module defines, and
    ['term']) are left to the caller. *)
Definition extractContent (content : string) (separator : separator)
    (key : string) : Result (list string) :=
  bind (mapM (encode_word key) (split separator content))
       (fun terms => Ok (List.filter (fun term => negb (endsWith "/" term)) terms)).

Lemma mapM_encode_word key encode words :
  prop_lookup key keyGen = Some encode ->
  mapM (encode_word key) words = Ok (map (fun w => encode (toLowerCase w)) words).
Proof.
  intros H. induction words as [|w ws IH]; [reflexivity|].
  cbn. unfold encode_word at 1. rewrite H. cbn. rewrite IH. reflexivity.
Qed.

Lemma endsWith_slash_encoded key encode w :
  prop_lookup key keyGen = Some encode ->
  endsWith "/" (encode w) = String.eqb w "" || endsWith "/" w.
Proof.
  unfold keyGen. cbn [prop_lookup].
  repeat (destruct (String.eqb _ key);
          [intros [= <-]; destruct w as [|c w]; [reflexivity|];
           cbn; destruct (Ascii.eqb "/" c); reflexivity|]).
  discriminate.
Qed.

(** What the filter keeps: the encoded pieces that, once lowercased, are
    neither empty nor end in a slash. *)
Lemma extractContent_spec content separator key encode :
  prop_lookup key keyGen = Some encode ->
  extractContent content separator key =
  Ok (map encode
        (List.filter (fun w => negb (String.eqb w "" || endsWith "/" w))
                (map toLowerCase (split separator content)))).
Proof.
  intros H. unfold extractContent.
  rewrite (mapM_encode_word _ _ _ H). cbn.
  f_equal. induction (split separator content) as [|w ws IH]; [reflexivity|].
  cbn [map List.filter]. rewrite IH, (endsWith_slash_encoded _ _ _ H).
  destruct (String.eqb (toLowerCase w) "" || endsWith "/" (toLowerCase w));
    reflexivity.
Qed.

Lemma extractContent_spec_witness :
  prop_lookup "term" keyGen = Some (fun key => "term/" +:+ key) /\
  extractContent "Foo  bar/ Baz" (SepString " ") "term" =
    Ok ["term/foo"; "term/baz"].
Proof.
  split; [reflexivity|].
  exact (extractContent_spec "Foo  bar/ Baz" (SepString " ") "term" _ eq_refl).
Defined.

(** C8 at a piece that ends in a slash: ["a/"] is not empty once lowercased,
    and it is dropped all the same. *)
Lemma extractContent_drops_trailing_slash :
  split (SepString " ") "a/ b" = ["a/"; "b"] /\
  extractContent "a/ b" (SepString " ") "term" = Ok ["term/b"].
Proof. split; reflexivity. Qed.

End Terms.

(** ** Numbers of the runtime: doubles, [ToNumber] and [toFixed] *)

Module Numbers.

(** The Number type: IEEE 754 binary64. *)
Definition number : Type := spec_float.
Definition prec : Z := 53.
Definition emax : Z := 1024.

Definition NaN : number := S754_nan.

(** The Number value for an integer: the nearest double, ties to even. *)
Definition of_Z (z : Z) : number := binary_normalize prec emax z 0 false.

(** The Number value for [n / d], with the sign given apart. *)
Definition of_ratio (negative : bool) (n d : Z) : number :=
  let '(q, e, l) := SFdiv_core_binary prec emax n 0 d 0 in
  binary_round_aux prec emax negative q e l.

(** [x * y] and [x + y]. *)
Definition mul (x y : number) : number := SFmul prec emax x y.
Definition add (x y : number) : number := SFadd prec emax x y.

(** [Number.isNaN(x)]. *)
Definition isNaN (x : number) : bool :=
  match x with S754_nan => true | _ => false end.

(** [x === 0]: true of both zeros. *)
Definition is_zero (x : number) : bool :=
  match x with S754_zero _ => true | _ => false end.

(** *** [StringToNumber] *)

Definition code_units (s : string) : list N :=
  map N_of_ascii (list_ascii_of_string s).

(** The white space and line terminator characters, as UTF-8 bytes. *)
Definition StrWhiteSpaceChar : list (list N) :=
  [ [9]; [10]; [11]; [12]; [13]; [32]; [194; 160]; [225; 154; 128];
    [226; 128; 128]; [226; 128; 129]; [226; 128; 130]; [226; 128; 131];
    [226; 128; 132]; [226; 128; 133]; [226; 128; 134]; [226; 128; 135];
    [226; 128; 136]; [226; 128; 137]; [226; 128; 138]; [226; 128; 168];
    [226; 128; 169]; [226; 128; 175]; [226; 129; 159]; [227; 128; 128];
    [239; 187; 191] ]%N.

Fixpoint strip_units (p s : list N) : option (list N) :=
  match p, s with
  | [], _ => Some s
  | a :: p', b :: s' => if (a =? b)%N then strip_units p' s' else None
  | _ :: _, [] => None
  end.

Fixpoint strip_one (chars : list (list N)) (s : list N) : option (list N) :=
  match chars with
  | [] => None
  | c :: chars' =>
      match strip_units c s with
      | Some rest => Some rest
      | None => strip_one chars' s
      end
  end.

Fixpoint trim_start (chars : list (list N)) (fuel : nat) (s : list N) : list N :=
  match fuel with
  | O => s
  | S fuel' =>
      match strip_one chars s with
      | Some rest => trim_start chars fuel' rest
      | None => s
      end
  end.

Definition trim (s : list N) : list N :=
  let s1 := trim_start StrWhiteSpaceChar (length s) s in
  rev (trim_start (map (@rev N) StrWhiteSpaceChar) (length s1) (rev s1)).

Definition digit_value (base : Z) (c : N) : option Z :=
  let c := Z.of_N c in
  let d :=
    if (48 <=? c)%Z && (c <=? 57)%Z then Some (c - 48)%Z
    else if (97 <=? c)%Z && (c <=? 102)%Z then Some (c - 87)%Z
    else if (65 <=? c)%Z && (c <=? 70)%Z then Some (c - 55)%Z
    else None in
  match d with
  | Some d => if (d <? base)%Z then Some d else None
  | None => None
  end.

(** The longest run of digits at the start of [s]: the number read after
    [acc], how many digits there were, and the rest. *)
Fixpoint digits (base acc : Z) (count : Z) (s : list N) : Z * Z * list N :=
  match s with
  | c :: s' =>
      match digit_value base c with
      | Some d => digits base (base * acc + d)%Z (count + 1)%Z s'
      | None => (acc, count, s)
      end
  | [] => (acc, count, s)
  end.

(** The Number value for [m * 10^e]. *)
Definition decimal_value (negative : bool) (m e : Z) : number :=
  if (m =? 0)%Z then S754_zero negative
  else if (0 <=? e)%Z then of_Z ((if negative then - m else m) * 10 ^ e)%Z
  else of_ratio negative m (10 ^ (- e))%Z.

Definition ExponentPart (s : list N) : option Z :=
  match s with
  | [] => Some 0%Z
  | c :: s' =>
      if (c =? 101)%N || (c =? 69)%N then
        let '(negative, s'') :=
          match s' with
          | 43%N :: t => (false, t)
          | 45%N :: t => (true, t)
          | _ => (false, s')
          end in
        match digits 10 0 0 s'' with
        | (e, count, []) =>
            if (0 <? count)%Z then Some (if negative then - e else e)%Z else None
        | _ => None
        end
      else None
  end.

Definition StrUnsignedDecimalLiteral (negative : bool) (s : list N) : number :=
  if bool_decide (s = code_units "Infinity") then S754_infinity negative
  else
    let '(int, int_count, s1) := digits 10 0 0 s in
    let '(mantissa, frac_count, s2) :=
      match s1 with
      | 46%N :: s' => digits 10 int 0 s'
      | _ => (int, 0%Z, s1)
      end in
    if (0 <? int_count + frac_count)%Z then
      match ExponentPart s2 with
      | Some e => decimal_value negative mantissa (e - frac_count)
      | None => NaN
      end
    else NaN.

Definition NonDecimalIntegerLiteral (base : Z) (s : list N) : number :=
  match digits base 0 0 s with
  | (v, count, []) => if (0 <? count)%Z then of_Z v else NaN
  | _ => NaN
  end.

Definition StringToNumber (s : string) : number :=
  match trim (code_units s) with
  | [] => S754_zero false
  | 48%N :: 120%N :: s' | 48%N :: 88%N :: s' => NonDecimalIntegerLiteral 16 s'
  | 48%N :: 111%N :: s' | 48%N :: 79%N :: s' => NonDecimalIntegerLiteral 8 s'
  | 48%N :: 98%N :: s' | 48%N :: 66%N :: s' => NonDecimalIntegerLiteral 2 s'
  | 43%N :: s' => StrUnsignedDecimalLiteral false s'
  | 45%N :: s' => StrUnsignedDecimalLiteral true s'
  | s' => StrUnsignedDecimalLiteral false s'
  end.

(** *** [Number::toString] of an integer from [10^21] on *)

Definition reads_as (X v : Z) : bool := SFeqb (of_Z v) (of_Z X).

Definition candidates (X : Z) (d k : Z) : list (Z * Z) :=
  let lo := (X / 10 ^ (d - k))%Z in
  List.filter
    (fun c : Z * Z =>
       let (s, n) := c in
       (10 ^ (k - 1) <=? s)%Z && (s <? 10 ^ k)%Z && reads_as X (s * 10 ^ (n - k))%Z)
    ([(lo, d); (lo + 1, d)%Z] ++ (if (k =? 1)%Z then [(1, d + 1)%Z] else [])).

(** The candidate nearest to [X]; of two as near, the even one. *)
Definition nearer (X k : Z) (c1 c2 : Z * Z) : Z * Z :=
  let dist := fun c : Z * Z => Z.abs (fst c * 10 ^ (snd c - k) - X)%Z in
  if (dist c1 <? dist c2)%Z then c1
  else if (dist c2 <? dist c1)%Z then c2
  else if Z.even (fst c1) then c1 else c2.

Definition nearest (X k : Z) (cs : list (Z * Z)) : option (Z * Z) :=
  match cs with
  | [] => None
  | c :: cs' => Some (fold_left (nearer X k) cs' c)
  end.

Fixpoint shortest (X d : Z) (fuel : nat) (k : Z) : Z * Z * Z :=
  match fuel with
  | O => (X, d, d)
  | S fuel' =>
      match nearest X k (candidates X d k) with
      | Some (s, n) => (s, n, k)
      | None => shortest X d fuel' (k + 1)%Z
      end
  end.

Definition exponent_form (X : Z) : string :=
  let d := Z.of_nat (String.length (pretty X)) in
  let '(s, n, k) := shortest X d (Z.to_nat d) 1 in
  match pretty s with
  | String first rest =>
      String first (if (k =? 1)%Z then "" else "." +:+ rest) +:+ "e+" +:+ pretty (n - 1)%Z
  | EmptyString => ""
  end.

(** [x.toFixed()], that is [x.toFixed(0)]. *)
Definition toFixed (x : number) : string :=
  match x with
  | S754_nan => "NaN"
  | S754_infinity negative => if negative then "-Infinity" else "Infinity"
  | S754_zero _ => "0"
  | S754_finite negative m e =>
      let num := (Zpos m * 2 ^ Z.max 0 e)%Z in
      let den := (2 ^ Z.max 0 (- e))%Z in
      (if negative then "-" else "") +:+
      (if (10 ^ 21 * den <=? num)%Z then exponent_form (num / den)
       else pretty ((2 * num + den) / (2 * den))%Z)
  end.


(** Below [10^21] in magnitude [toFixed] prints the nearest integer, the
    larger one of two as near, after the sign. *)
Lemma toFixed_nearest_integer (negative : bool) (m : positive) (e : Z) :
  let num := (Zpos m * 2 ^ Z.max 0 e)%Z in
  let den := (2 ^ Z.max 0 (- e))%Z in
  (num < 10 ^ 21 * den)%Z ->
  exists n : Z,
    toFixed (S754_finite negative m e) =
      (if negative then "-" else "") +:+ pretty n /\
    ((2 * n - 1) * den <= 2 * num < (2 * n + 1) * den)%Z.
Proof.
  intros num den Hlt. exists ((2 * num + den) / (2 * den))%Z.
  assert (Hden : (0 < den)%Z) by (apply Z.pow_pos_nonneg; lia).
  split.
  - unfold toFixed. fold num den.
    destruct (Z.leb_spec (10 ^ 21 * den) num) as [Hge|_]; [lia|reflexivity].
  - pose proof (Z.div_mod (2 * num + den) (2 * den)) as Hdiv.
    pose proof (Z.mod_pos_bound (2 * num + den) (2 * den)) as Hmod.
    set (n := ((2 * num + den) / (2 * den))%Z) in *.
    set (r := ((2 * num + den) mod (2 * den))%Z) in *.
    nia.
Qed.

End Numbers.

(** ** Scorer: [boostScores] *)

Module Scorer.
Import Numbers.

(** [+v] on the values a score holds: of an object that is not a
    primitive wrapper it is [NaN]. *)
Definition ToNumber (v : jsval) : number :=
  match v with
  | JUndefined => NaN
  | JNull => S754_zero false
  | JStr s => StringToNumber s
  | JObj _ => NaN
  end.

Definition example_scores : list (string * obj) :=
  [ ("page/a", [("latest", JStr "100"); ("title", JStr "t")]);
    ("page/b", [("latest", JStr "n/a")]);
    ("page/c", [("latest", JStr " 1512345678901.5 ")]);
    ("page/d", [("title", JStr "no latest")]);
    ("page/e", [("latest", JStr "1e21")]);
    ("page/f", [("latest", JStr "-0x10")]);
    ("page/g", [("latest", JNull)]) ].

Section BoostScores.
Context {K : Type} `{EqDecision K}.

(** What the loop does with one score: left alone when [latest] is not a
    number, otherwise a fresh object that holds the new [latest] only. *)
Definition boost_score (boost : number) (score : obj) : option obj :=
  let currScore := ToNumber (obj_get "latest" score) in
  if isNaN currScore then None
  else
    let newScore := mul currScore (add (of_Z 1) boost) in
    Some [("latest", JStr (toFixed newScore))].

(** The body of the [for ... of] loop on the entry [(pageId, score)]. *)
Definition boost_entry (boost : number) (pageScoresMap : list (K * obj))
    (entry : K * obj) : list (K * obj) :=
  let (pageId, score) := entry in
  match boost_score boost score with
  | Some newScore => map_set pageId newScore pageScoresMap
  | None => pageScoresMap
  end.

(** [boostScores(pageScoresMap, boost)]: the map is updated in place while
    its entries are walked; an update never adds a key, so the walk is over
    the entries the map had at the start. *)
Definition boostScores (pageScoresMap : list (K * obj)) (boost : number)
  : list (K * obj) :=
  if is_zero boost then pageScoresMap
  else fold_left (boost_entry boost) pageScoresMap pageScoresMap.

(** The score an entry ends with. *)
Definition boosted_score (boost : number) (score : obj) : obj :=
  match boost_score boost score with
  | Some newScore => newScore
  | None => score
  end.

Lemma boost_loop boost (seen rest : list (K * obj)) :
  NoDup (map_keys (seen ++ rest)) ->
  map_keys (map (fun e => (fst e, boosted_score boost (snd e))) seen) = map_keys seen ->
  fold_left (boost_entry boost) rest
    (map (fun e => (fst e, boosted_score boost (snd e))) seen ++ rest) =
  map (fun e => (fst e, boosted_score boost (snd e))) (seen ++ rest).
Proof.
  revert seen. induction rest as [|[k s] rest IH]; intros seen Hnd Hk.
  - cbn. now rewrite !app_nil_r.
  - cbn [fold_left]. unfold boost_entry at 2.
    assert (Hnin : k ∉ map_keys (map (fun e => (fst e, boosted_score boost (snd e))) seen)).
    { rewrite Hk. unfold map_keys in Hnd. rewrite map_app in Hnd.
      apply NoDup_app in Hnd as (_ & Hd & _). intros Hin.
      apply (Hd _ Hin). cbn. apply list_elem_of_here. }
    assert (Hstep :
      match boost_score boost s with
      | Some newScore =>
          map_set k newScore
            (map (fun e => (fst e, boosted_score boost (snd e))) seen ++ (k, s) :: rest)
      | None => map (fun e => (fst e, boosted_score boost (snd e))) seen ++ (k, s) :: rest
      end =
      map (fun e => (fst e, boosted_score boost (snd e))) (seen ++ [(k, s)]) ++ rest).
    { rewrite map_app, <- app_assoc. cbn [map app fst snd].
      destruct (boost_score boost s) as [newScore|] eqn:E.
      - rewrite (map_set_middle _ _ _ _ _ Hnin).
        unfold boosted_score at 3. rewrite E. reflexivity.
      - unfold boosted_score at 3. rewrite E. reflexivity. }
    rewrite Hstep.
    replace (seen ++ (k, s) :: rest) with ((seen ++ [(k, s)]) ++ rest)
      by now rewrite <- app_assoc.
    apply IH.
    + now rewrite <- app_assoc.
    + unfold map_keys. rewrite !map_map. reflexivity.
Qed.

Lemma boostScores_pointwise (pageScoresMap : list (K * obj)) boost :
  NoDup (map_keys pageScoresMap) ->
  is_zero boost = false ->
  boostScores pageScoresMap boost =
  map (fun e => (fst e, boosted_score boost (snd e))) pageScoresMap.
Proof.
  intros Hnd Hz. unfold boostScores. rewrite Hz.
  apply (boost_loop boost [] pageScoresMap Hnd). reflexivity.
Qed.

Lemma map_get_map_values (f : obj -> obj) (m : list (K * obj)) k :
  map_get k (map (fun e => (fst e, f (snd e))) m) = f <$> map_get k m.
Proof.
  induction m as [|[k0 s] m IH]; cbn; [reflexivity|].
  destruct (decide (k0 = k)); [reflexivity|exact IH].
Qed.

(** C9, as the code has it: with a zero boost the map is returned as it is;
    otherwise the keys stay, an entry whose [latest] is not a number keeps
    its score, and an entry whose [latest] is a number gets a new score that
    holds no other field than [latest], which is
    [(latest * (1 + boost)).toFixed()]: the product of doubles, printed,
    when it is finite and below [10^21] in magnitude, as the decimal digits
    of the integer nearest to it (the one away from zero of two as near),
    after a minus sign when it is negative. *)
Theorem boostScores_replaces_numeric_scores (pageScoresMap : list (K * obj))
    (boost : number) :
  NoDup (map_keys pageScoresMap) ->
  ((exists sign, boost = S754_zero sign) ->
   boostScores pageScoresMap boost = pageScoresMap) /\
  ((forall sign, boost <> S754_zero sign) ->
   map_keys (boostScores pageScoresMap boost) = map_keys pageScoresMap /\
   forall pageId score,
     map_get pageId pageScoresMap = Some score ->
     let newScore :=
       SFmul 53 1024 (ToNumber (obj_get "latest" score))
         (SFadd 53 1024 (of_Z 1) boost) in
     map_get pageId (boostScores pageScoresMap boost) =
       Some match ToNumber (obj_get "latest" score) with
            | S754_nan => score
            | _ => [("latest", JStr (toFixed newScore))]
            end /\
     forall (negative : bool) (m : positive) (e : Z),
       newScore = S754_finite negative m e ->
       let num := (Zpos m * 2 ^ Z.max 0 e)%Z in
       let den := (2 ^ Z.max 0 (- e))%Z in
       (num < 10 ^ 21 * den)%Z ->
       exists n : Z,
         map_get pageId (boostScores pageScoresMap boost) =
           Some [("latest", JStr ((if negative then "-" else "") +:+ pretty n))] /\
         ((2 * n - 1) * den <= 2 * num < (2 * n + 1) * den)%Z).
Proof.
  intros Hnd. split.
  - intros [sign ->]. reflexivity.
  - intros Hz.
    assert (Hz' : is_zero boost = false).
    { destruct boost; try reflexivity. now destruct (Hz s). }
    rewrite (boostScores_pointwise _ _ Hnd Hz'). split.
    + unfold map_keys. rewrite map_map. reflexivity.
    + intros pageId score Hget newScore.
      assert (Hnew : map_get pageId
                (map (fun e => (fst e, boosted_score boost (snd e))) pageScoresMap) =
              Some match ToNumber (obj_get "latest" score) with
                   | S754_nan => score
                   | _ => [("latest", JStr (toFixed newScore))]
                   end).
      { rewrite map_get_map_values, Hget. cbn. f_equal.
        unfold boosted_score, boost_score.
        destruct (ToNumber (obj_get "latest" score)); reflexivity. }
      split; [exact Hnew|].
      intros negative m e Hfinite num den Hlt.
      destruct (toFixed_nearest_integer negative m e Hlt) as (n & Hfix & Hn).
      exists n. split; [|exact Hn].
      rewrite Hnew, <- Hfix, <- Hfinite.
      destruct (ToNumber (obj_get "latest" score)) eqn:Ecurr; try reflexivity.
      discriminate Hfinite.
Qed.

End BoostScores.

Lemma boostScores_replaces_numeric_scores_witness :
  NoDup (map_keys example_scores) /\
  map_keys (boostScores example_scores (StringToNumber "0.2")) =
    ["page/a"; "page/b"; "page/c"; "page/d"; "page/e"; "page/f"; "page/g"] /\
  map_get "page/a" (boostScores example_scores (StringToNumber "0.2")) =
    Some [("latest", JStr "120")] /\
  map_get "page/b" (boostScores example_scores (StringToNumber "0.2")) =
    Some [("latest", JStr "n/a")] /\
  map_get "page/c" (boostScores example_scores (StringToNumber "0.2")) =
    Some [("latest", JStr "1814814814682")] /\
  map_get "page/d" (boostScores example_scores (StringToNumber "0.2")) =
    Some [("title", JStr "no latest")] /\
  map_get "page/e" (boostScores example_scores (StringToNumber "0.2")) =
    Some [("latest", JStr "1.2e+21")] /\
  map_get "page/f" (boostScores example_scores (StringToNumber "0.2")) =
    Some [("latest", JStr "-0x10")] /\
  map_get "page/g" (boostScores example_scores (StringToNumber "0.2")) =
    Some [("latest", JStr "0")].
Proof.
  assert (Hnd : NoDup (map_keys example_scores)).
  { apply (bool_decide_unpack _). vm_compute. exact I. }
  split; [exact Hnd|].
  destruct (boostScores_replaces_numeric_scores example_scores
              (StringToNumber "0.2") Hnd) as [_ H].
  destruct H as [Hkeys Hget].
  { intros sign Hzero. vm_compute in Hzero. discriminate Hzero. }
  split; [exact Hkeys|].
  repeat split;
    (etransitivity; [eapply Hget; reflexivity|vm_compute; reflexivity]).
Defined.

(** C9 as stated fails on an entry with a field besides [latest]: the new
    score has lost [title]. *)
Lemma boostScores_drops_other_fields :
  boostScores [("page/a", [("latest", JStr "100"); ("title", JStr "t")])]
    (of_Z 1) =
  [("page/a", [("latest", JStr "200")])].
Proof. vm_compute. reflexivity. Qed.

End Scorer.

(** ** Point lookups: [initSingleLookup], [fetchExistingPage],
    [initLookupByKeys] *)

Module Lookup.

(** The options object of the lookups; [None] is a property left out. *)
Record lookupOpts := {
  defaultValue : option jsval;
  asBuffer : option bool;
  concurrency : option nat;
}.

Definition defLookupOpts : lookupOpts :=
  {| defaultValue := Some JNull; asBuffer := Some false; concurrency := Some 5 |}.

(** A destructuring default [{ defaultValue = null }]: it applies when the
    property is missing or [undefined]. *)
Definition defaultValue_or_null (o : lookupOpts) : jsval :=
  match defaultValue o with
  | None | Some JUndefined => JNull
  | Some v => v
  end.

(** The argument of the function [initLookupByKeys] returns: one key or an
    array of keys. *)
Inductive keysArg :=
| OneKey (key : string)
| ManyKeys (keys : list string).

Definition requested (keys : keysArg) : list string :=
  match keys with
  | OneKey key => [key]
  | ManyKeys keys => keys
  end.

(** The error the store raises for a missing key. *)
Definition NotFoundError (key : string) : error :=
  {| message := "NotFoundError: Key not found in database [" +:+ key +:+ "]";
     notFound := true |}.

(** [index.get] of a store that holds [db] and never fails otherwise. *)
Definition db_get (db : list (string * jsval)) (key : string) (asBuffer : bool)
  : Result jsval :=
  match prop_lookup key db with
  | Some v => Ok v
  | None => Throw (NotFoundError key)
  end.

Definition example_db : list (string * jsval) :=
  [("page/abc", JObj [("url", JStr "example.com")])].

Section Lookups.
(** [index.get(key, { asBuffer })] of the store in use. *)
Variable index_get : string -> bool -> Result jsval.

(** [initSingleLookup(opts)(key)]. *)
Definition initSingleLookup (opts : option lookupOpts) (key : string)
  : Result jsval :=
  let o := default defLookupOpts opts in
  let defaultValue := defaultValue_or_null o in
  let asBuffer := default false (asBuffer o) in
  match index_get key asBuffer with
  | Ok v => Ok v
  | Throw error => if notFound error then Ok defaultValue else Throw error
  end.




(** [initLookupByKeys(opts)(keys)].  [runConcurrent.map] settles like
    [Promise.all]: the values in the order of the keys, or the first
    rejection; the lookups here are taken in the order of the keys. *)
Definition initLookupByKeys (opts : option lookupOpts) (keys : keysArg)
  : Result (list (string * jsval)) :=
  let o := default defLookupOpts opts in
  let concurrency := default 5 (concurrency o) in
  let defaultValue := defaultValue_or_null o in
  let asBuffer := default false (asBuffer o) in
  let singleLookup :=
    initSingleLookup
      (Some {| defaultValue := Some defaultValue; asBuffer := Some asBuffer;
               concurrency := None |}) in
  bind
    (match keys with
     | OneKey key => bind (singleLookup key) (fun v => Ok [(key, v)])
     | ManyKeys keys =>
         mapM (fun key => bind (singleLookup key) (fun v => Ok (key, v))) keys
     end)
    (fun entries => Ok (map_of_entries entries)).

(** The value a lookup of [key] settles with, when it does. *)
Definition lookup_value (o : lookupOpts) (key : string) : jsval :=
  match index_get key (default false (asBuffer o)) with
  | Ok v => v
  | Throw _ => defaultValue_or_null o
  end.

Lemma initSingleLookup_Ok opts key v :
  initSingleLookup opts key = Ok v ->
  v = lookup_value (default defLookupOpts opts) key /\
  forall e, index_get key (default false (asBuffer (default defLookupOpts opts))) = Throw e ->
            notFound e = true.
Proof.
  unfold initSingleLookup, lookup_value.
  destruct (index_get key _) as [w|e]; [intros [= ->]; split; [reflexivity|discriminate]|].
  destruct (notFound e) eqn:E; [|discriminate].
  intros [= <-]. split; [reflexivity|]. intros e' [= <-]. exact E.
Qed.

Lemma initSingleLookup_Throw opts key e :
  initSingleLookup opts key = Throw e ->
  index_get key (default false (asBuffer (default defLookupOpts opts))) = Throw e /\
  notFound e = false.
Proof.
  unfold initSingleLookup.
  destruct (index_get key _) as [w|e']; [discriminate|].
  destruct (notFound e') eqn:E; [discriminate|].
  intros [= ->]. split; [reflexivity|exact E].
Qed.

Lemma initLookupByKeys_OneKey opts key :
  initLookupByKeys opts (OneKey key) = initLookupByKeys opts (ManyKeys [key]).
Proof.
  unfold initLookupByKeys. cbn.
  destruct (initSingleLookup _ key); reflexivity.
Qed.

End Lookups.




(** The outcomes of a batched lookup, in terms of the destructured
    options. *)
Lemma initLookupByKeys_outcome
    (index_get : string -> bool -> Result jsval) (opts : option lookupOpts)
    (keys : keysArg) :
  let o := default defLookupOpts opts in
  let asBuffer := default false (asBuffer o) in
  match initLookupByKeys index_get opts keys with
  | Ok found =>
      (forall key, key ∈ map_keys found <-> key ∈ requested keys) /\
      (forall key, key ∈ requested keys ->
         match index_get key asBuffer with
         | Ok v => map_get key found = Some v
         | Throw e =>
             notFound e = true /\
             map_get key found = Some (defaultValue_or_null o)
         end)
  | Throw e =>
      exists key, key ∈ requested keys /\
                  index_get key asBuffer = Throw e /\ notFound e = false
  end.
Proof.
  intros o asBuffer.
  assert (Hmany : forall ks,
    match initLookupByKeys index_get opts (ManyKeys ks) with
    | Ok found =>
        (forall key, key ∈ map_keys found <-> key ∈ ks) /\
        (forall key, key ∈ ks ->
           match index_get key asBuffer with
           | Ok v => map_get key found = Some v
           | Throw e =>
               notFound e = true /\
               map_get key found = Some (defaultValue_or_null o)
           end)
    | Throw e =>
        exists key, key ∈ ks /\
                    index_get key asBuffer = Throw e /\ notFound e = false
    end).
  { intros ks. unfold initLookupByKeys. fold o.
    set (single := initSingleLookup index_get _).
    assert (Hok : forall key v, single key = Ok v ->
              v = lookup_value index_get o key /\
              forall e, index_get key asBuffer = Throw e -> notFound e = true).
    { intros key v H. apply initSingleLookup_Ok in H. cbn in H.
      unfold lookup_value, defaultValue_or_null in *. cbn in H.
      fold asBuffer in H |- *.
      destruct H as [-> H]. split; [|exact H].
      destruct (index_get key asBuffer); [reflexivity|].
      destruct (defaultValue o) as [[]|]; reflexivity. }
    assert (Hthrow : forall key e, single key = Throw e ->
              index_get key asBuffer = Throw e /\ notFound e = false).
    { intros key e H. apply initSingleLookup_Throw in H. exact H. }
    destruct (mapM _ ks) as [entries|e] eqn:Em; cbn.
    - apply mapM_Ok in Em.
      assert (Hent : entries = map (fun key => (key, lookup_value index_get o key)) ks
                     /\ forall key, key ∈ ks -> forall e,
                          index_get key asBuffer = Throw e -> notFound e = true).
      { induction Em as [|key y ks' ys Hy _ IH].
        - split; [reflexivity|]. intros key Hin. inversion Hin.
        - destruct (single key) as [v|e] eqn:Es; cbn in Hy; [|discriminate].
          injection Hy as <-. destruct (Hok _ _ Es) as [-> Hnf].
          destruct IH as [-> IH]. split; [reflexivity|].
          intros key' [->|Hin]%elem_of_cons; [exact Hnf|exact (IH _ Hin)]. }
      destruct Hent as [-> Hnf]. split.
      + intros key. apply map_of_entries_keys.
      + intros key Hin. rewrite map_of_entries_get, decide_True by assumption.
        unfold lookup_value. fold asBuffer.
        destruct (index_get key asBuffer) as [v|e] eqn:Eg; [reflexivity|].
        split; [eapply Hnf; eauto|reflexivity].
    - apply mapM_Throw in Em as (key & Hin & Hkey).
      destruct (single key) as [v|e'] eqn:Es; cbn in Hkey; [discriminate|].
      injection Hkey as ->. exists key. split; [assumption|]. now apply Hthrow. }
  destruct keys as [key|ks]; [|apply Hmany].
  rewrite initLookupByKeys_OneKey. apply Hmany.
Qed.

(** C5: the map a batched lookup resolves to has exactly the requested keys,
    each with its stored value, or, when the store reports the key as not
    found, with the caller's [defaultValue] ([null] when the caller gave no
    options, no [defaultValue] or [undefined]); the store is read with the
    caller's [asBuffer] ([false] when not given); the lookup fails only with
    a store error of another kind raised for one of the keys, and no such
    error is swallowed. *)
Theorem initLookupByKeys_covers_requested
    (index_get : string -> bool -> Result jsval) (opts : option lookupOpts)
    (keys : keysArg) :
  let missing :=
    match opts with
    | None => JNull
    | Some {| defaultValue := None |} => JNull
    | Some {| defaultValue := Some JUndefined |} => JNull
    | Some {| defaultValue := Some value |} => value
    end in
  let buffers :=
    match opts with
    | None => false
    | Some {| asBuffer := None |} => false
    | Some {| asBuffer := Some flag |} => flag
    end in
  match initLookupByKeys index_get opts keys with
  | Ok found =>
      (forall key, key ∈ map_keys found <-> key ∈ requested keys) /\
      (forall key, key ∈ requested keys ->
         match index_get key buffers with
         | Ok v => map_get key found = Some v
         | Throw e => notFound e = true /\ map_get key found = Some missing
         end)
  | Throw e =>
      exists key, key ∈ requested keys /\
                  index_get key buffers = Throw e /\ notFound e = false
  end.
Proof.
  intros missing buffers.
  pose proof (initLookupByKeys_outcome index_get opts keys) as H.
  cbv zeta in H.
  assert (Hm : defaultValue_or_null (default defLookupOpts opts) = missing).
  { destruct opts as [[[[]|] ? ?]|]; reflexivity. }
  assert (Hb : default false (asBuffer (default defLookupOpts opts)) = buffers).
  { destruct opts as [[? [|] ?]|]; reflexivity. }
  rewrite Hm, Hb in H. exact H.
Qed.

Lemma initLookupByKeys_covers_requested_witness :
  exists found,
    initLookupByKeys (db_get example_db)
      (Some {| defaultValue := Some (JStr "no such page"); asBuffer := None;
               concurrency := None |})
      (ManyKeys ["page/abc"; "nope"])
      = Ok found /\
    map_get "page/abc" found = Some (JObj [("url", JStr "example.com")]) /\
    map_get "nope" found = Some (JStr "no such page").
Proof.
  set (opts := Some {| defaultValue := Some (JStr "no such page");
                       asBuffer := None; concurrency := None |}).
  pose proof (initLookupByKeys_covers_requested (db_get example_db) opts
                (ManyKeys ["page/abc"; "nope"])) as H.
  cbv zeta in H.
  destruct (initLookupByKeys (db_get example_db) opts
              (ManyKeys ["page/abc"; "nope"])) as [found|e] eqn:E;
    [|discriminate E].
  destruct H as [_ H]. exists found. split; [reflexivity|]. split.
  - apply (H "page/abc"). apply (bool_decide_unpack _). vm_compute. exact I.
  - apply (H "nope"). apply (bool_decide_unpack _). vm_compute. exact I.
Defined.

End Lookup.

(** ** Range scans: [termRangeLookup], [normalizeTimestampVals],
    [reverseRangeLookup] *)

Module Range.

(** The options of [createReadStream] that the scans set. *)
Record iteratorOpts := {
  gte : option string;
  lte : option string;
  reverse : bool;
}.

Definition in_bounds (opts : iteratorOpts) (key : string) : bool :=
  match gte opts with Some lo => String.leb lo key | None => true end &&
  match lte opts with Some hi => String.leb key hi | None => true end.

(** [index.db.createReadStream(opts)]: the entries the stream emits as
    ['data'], in order, for a store that holds [db], its entries listed in
    ascending key order. *)
Definition createReadStream {V} (opts : iteratorOpts) (db : list (string * V))
  : list (string * V) :=
  let selected := List.filter (fun entry => in_bounds opts (fst entry)) db in
  if reverse opts then rev selected else selected.

(** The character [\uffff], as the bytes of its UTF-8 encoding. *)
Definition MAX_SORT_CHAR : string :=
  String "239" (String "191" (String "191" EmptyString)).

(** The ['data'] handler of [termRangeLookup]. *)
Definition term_on_data (termsSet : list string) (results : list (string * jsval))
    (entry : string * jsval) : list (string * jsval) :=
  let (key, value) := entry in
  if set_has key termsSet then map_set key value results else results.

(** [termRangeLookup(termKey, termsSet)]: the map the promise resolves to at
    the ['end'] of the stream. *)
Definition termRangeLookup (termKey : string) (termsSet : list string)
    (db : list (string * jsval)) : list (string * jsval) :=
  let results := map_of_entries (map (fun key => (key, JNull)) termsSet) in
  fold_left (term_on_data termsSet)
    (createReadStream
       {| gte := Some termKey; lte := Some (termKey +:+ MAX_SORT_CHAR);
          reverse := false |} db)
    results.

(** A value stored under a visit or bookmark key: a page identifier, or an
    object with a [pageId] and further data. *)
Inductive tsval :=
| TsBare (pageId : string)
| TsRecord (props : obj).

(** [normalizeTimestampVals(value)]: the pair of [pageId] and [meta]. *)
Definition normalizeTimestampVals (value : tsval) : jsval * obj :=
  match value with
  | TsBare pageId => (JStr pageId, [])
  | TsRecord props => (obj_get "pageId" props, obj_rest "pageId" props)
  end.

(** [data.size >= limit]; [None] is the default, [Infinity]. *)
Definition limit_reached (limit : option nat) (size : nat) : bool :=
  match limit with
  | Some n => (n <=? size)%nat
  | None => false
  end.

(** The state of one [reverseRangeLookup]: the map being filled, what the
    promise was resolved with, whether the stream was destroyed, and how
    many entries the stream has emitted. *)
Record scan := {
  data : list (jsval * obj);
  resolved : option (list (jsval * obj));
  destroyed : bool;
  delivered : nat;
}.

(** [resolve(data)]: only the first call settles the promise. *)
Definition resolve (st : scan) : scan :=
  {| data := data st;
     resolved := match resolved st with Some r => Some r | None => Some (data st) end;
     destroyed := destroyed st;
     delivered := delivered st |}.

(** The entry recorded for a page: [{ latest: removeKeyType(key), ...meta }]. *)
Definition page_entry (key : string) (meta : obj) : obj :=
  obj_spread [("latest", JStr (removeKeyType key))] meta.

(** What the handler adds to [data] for one stream entry. *)
Definition record_entry (data : list (jsval * obj)) (entry : string * tsval)
  : list (jsval * obj) :=
  let (key, value) := entry in
  let (pageId, meta) := normalizeTimestampVals value in
  if map_has pageId data then data
  else map_set pageId (page_entry key meta) data.

(** The ['data'] handler of [reverseRangeLookup]. *)
Definition reverse_on_data (limit : option nat) (st : scan)
    (entry : string * tsval) : scan :=
  if limit_reached limit (map_size (data st)) then
    resolve {| data := data st; resolved := resolved st; destroyed := true;
               delivered := delivered st |}
  else
    {| data := record_entry (data st) entry; resolved := resolved st;
       destroyed := destroyed st; delivered := delivered st |}.

(** The stream at work: it emits its entries one by one until it is
    destroyed, and ['end'] after the last one. *)
Fixpoint emit (limit : option nat) (st : scan) (entries : list (string * tsval))
  : scan :=
  if destroyed st then st
  else
    match entries with
    | [] => resolve st
    | entry :: rest =>
        emit limit
          (reverse_on_data limit
             {| data := data st; resolved := resolved st;
                destroyed := destroyed st; delivered := S (delivered st) |}
             entry)
          rest
    end.

(** The map that recording every entry of a stream gives: one entry per
    page, in the order the pages first show up. *)
Definition latest_by_page (stream : list (string * tsval)) : list (jsval * obj) :=
  fold_left record_entry stream [].

(** The first entry of a stream that belongs to a page: its key and [meta]. *)
Fixpoint first_visit (pageId : jsval) (stream : list (string * tsval))
  : option (string * obj) :=
  match stream with
  | [] => None
  | (key, value) :: rest =>
      if decide (fst (normalizeTimestampVals value) = pageId)
      then Some (key, snd (normalizeTimestampVals value))
      else first_visit pageId rest
  end.

(** [reverseRangeLookup({ limit, ...iteratorOpts })]. *)
Definition reverseRangeLookup (limit : option nat) (iteratorOpts : iteratorOpts)
    (db : list (string * tsval)) : scan :=
  let stream :=
    createReadStream
      {| gte := gte iteratorOpts; lte := lte iteratorOpts; reverse := true |} db in
  emit limit
    {| data := []; resolved := None; destroyed := false; delivered := 0 |}
    stream.

(** The map an emitting stream leaves behind. *)
Fixpoint fill (limit : option nat) (d : list (jsval * obj))
    (entries : list (string * tsval)) : list (jsval * obj) :=
  match entries with
  | [] => d
  | entry :: rest =>
      if limit_reached limit (map_size d) then d
      else fill limit (record_entry d entry) rest
  end.

Definition example_terms_db : list (string * jsval) :=
  [("term/foo", JStr "X"); ("title/foo", JStr "Y")].



Lemma filter_keys_NoDup {V} (f : string * V -> bool) (l : list (string * V)) :
  NoDup (map fst l) -> NoDup (map fst (List.filter f l)).
Proof.
  induction l as [|e l IH]; cbn; [auto|].
  intros [Hn Hnd]%NoDup_cons. destruct (f e); cbn; [|auto].
  apply NoDup_cons. split; [|auto].
  intros Hin. apply Hn.
  apply list_elem_of_In, in_map_iff in Hin as (x & <- & Hx).
  apply filter_In in Hx as [Hx _].
  apply list_elem_of_In, in_map_iff. eauto.
Qed.

Lemma rev_keys_NoDup {V} (l : list (string * V)) :
  NoDup (map fst l) -> NoDup (map fst (rev l)).
Proof. rewrite map_rev, !NoDup_ListNoDup. apply List.NoDup_rev. Qed.

Lemma createReadStream_NoDup {V} opts (db : list (string * V)) :
  NoDup (map fst db) -> NoDup (map fst (createReadStream opts db)).
Proof.
  intros H. unfold createReadStream.
  destruct (reverse opts); [apply rev_keys_NoDup|]; now apply filter_keys_NoDup.
Qed.

Section TermRangeLookup.
Variable termsSet : list string.

Lemma term_on_data_keys results entry :
  (forall key, key ∈ termsSet -> key ∈ map_keys results) ->
  map_keys (term_on_data termsSet results entry) = map_keys results.
Proof.
  intros Hall. destruct entry as [key value]. unfold term_on_data, set_has.
  case_bool_decide as Hin; [|reflexivity].
  now apply map_set_old, Hall.
Qed.

Lemma term_scan_keys stream results :
  (forall key, key ∈ termsSet -> key ∈ map_keys results) ->
  map_keys (fold_left (term_on_data termsSet) stream results) = map_keys results.
Proof.
  revert results. induction stream as [|entry stream IH]; intros results Hall;
    cbn [fold_left]; [reflexivity|].
  rewrite IH; [now apply term_on_data_keys|].
  intros key Hin. rewrite term_on_data_keys by assumption. auto.
Qed.

(** The value a candidate key ends with: that of the last entry the stream
    emitted for it, if any. *)
Lemma term_scan_get stream results key :
  key ∈ termsSet ->
  map_get key (fold_left (term_on_data termsSet) stream results) =
  match prop_lookup key (rev stream) with
  | Some value => Some value
  | None => map_get key results
  end.
Proof.
  intros Hkey. revert results.
  induction stream as [|[k v] stream IH]; intros results; cbn [fold_left rev];
    [reflexivity|].
  rewrite IH, prop_lookup_app. destruct (prop_lookup key (rev stream)); [reflexivity|].
  cbn. unfold set_has. destruct (String.eqb_spec k key) as [->|Hne].
  - rewrite bool_decide_eq_true_2 by assumption.
    rewrite map_get_set, decide_True; reflexivity.
  - case_bool_decide; [|reflexivity].
    rewrite map_get_set, decide_False; [reflexivity|assumption].
Qed.

End TermRangeLookup.

(** C3: the map has exactly the candidate keys; a candidate key that the
    scanned range holds has its stored value, every other one has [null]. *)
Theorem termRangeLookup_covers_termsSet (termKey : string)
    (termsSet : list string) (db : list (string * jsval)) :
  NoDup (map fst db) ->
  let stream :=
    createReadStream
      {| gte := Some termKey; lte := Some (termKey +:+ MAX_SORT_CHAR);
         reverse := false |} db in
  let results := termRangeLookup termKey termsSet db in
  (forall key, key ∈ map_keys results <-> key ∈ termsSet) /\
  (forall key, key ∈ termsSet ->
     (forall value, (key, value) ∈ stream -> map_get key results = Some value) /\
     (key ∉ map fst stream -> map_get key results = Some JNull)).
Proof.
  intros Hnd stream results.
  assert (Hinit : forall key,
            key ∈ map_keys (map_of_entries (map (fun key => (key, JNull)) termsSet))
            <-> key ∈ termsSet)
    by (intros key; apply (map_of_entries_keys (fun _ => JNull))).
  split.
  - intros key. unfold results, termRangeLookup.
    rewrite term_scan_keys; [apply Hinit|]. intros k Hk. now apply Hinit.
  - intros key Hkey. unfold results, termRangeLookup. fold stream.
    rewrite (term_scan_get _ _ _ _ Hkey).
    rewrite (map_of_entries_get (fun _ => JNull)), decide_True by assumption.
    split.
    + intros value Hin.
      rewrite (prop_lookup_NoDup key value); [reflexivity| |].
      * apply rev_keys_NoDup, createReadStream_NoDup, Hnd.
      * apply list_elem_of_In, in_rev. rewrite rev_involutive.
        now apply list_elem_of_In.
    + intros Hnin.
      assert (Hnone : prop_lookup key (rev stream) = None).
      { apply prop_lookup_None. rewrite map_rev. intros Hin. apply Hnin.
        apply list_elem_of_In. apply list_elem_of_In in Hin.
        now apply in_rev in Hin. }
      rewrite Hnone. reflexivity.
Qed.

Lemma termRangeLookup_covers_termsSet_witness :
  NoDup (map fst example_terms_db) /\
  map_get "term/foo" (termRangeLookup "term/" ["term/foo"; "term/bar"] example_terms_db)
    = Some (JStr "X") /\
  map_get "term/bar" (termRangeLookup "term/" ["term/foo"; "term/bar"] example_terms_db)
    = Some JNull.
Proof.
  assert (Hnd : NoDup (map fst example_terms_db)).
  { apply (bool_decide_unpack _). vm_compute. exact I. }
  split; [exact Hnd|].
  destruct (termRangeLookup_covers_termsSet "term/" ["term/foo"; "term/bar"]
              example_terms_db Hnd) as [_ H].
  split.
  - apply (H "term/foo"); [apply (bool_decide_unpack _); vm_compute; exact I|].
    apply (bool_decide_unpack _). vm_compute. exact I.
  - apply (H "term/bar"); [apply (bool_decide_unpack _); vm_compute; exact I|].
    apply (bool_decide_unpack _). vm_compute. exact I.
Defined.

Section ReverseRangeLookup.
Variable limit : option nat.
Implicit Types (d : list (jsval * obj)) (st : scan).

Lemma record_entry_appends d entry :
  record_entry d entry = d \/
  exists pageId v, (pageId ∉ map_keys d) /\ record_entry d entry = d ++ [(pageId, v)].
Proof.
  destruct entry as [key value]. unfold record_entry, map_has.
  destruct (normalizeTimestampVals value) as [pageId meta].
  destruct (map_get pageId d) eqn:E; [now left|].
  right. exists pageId, (page_entry key meta).
  apply map_get_None in E. split; [assumption|now apply map_set_new].
Qed.

Lemma record_entry_size d entry :
  map_size d <= map_size (record_entry d entry) /\
  map_size (record_entry d entry) <= S (map_size d).
Proof.
  unfold map_size.
  destruct (record_entry_appends d entry) as [->|(k & v & _ & ->)]; [lia|].
  rewrite length_app. cbn. lia.
Qed.


Lemma record_all_prefix stream d :
  exists more, fold_left record_entry stream d = d ++ more.
Proof.
  revert d. induction stream as [|entry stream IH]; intros d; cbn.
  - exists []. now rewrite app_nil_r.
  - destruct (IH (record_entry d entry)) as [more ->].
    destruct (record_entry_appends d entry) as [->|(k & v & _ & ->)]; [eauto|].
    rewrite <- app_assoc. eauto.
Qed.


Lemma record_all_get stream d pageId :
  map_get pageId (fold_left record_entry stream d) =
  match map_get pageId d with
  | Some v => Some v
  | None =>
      match first_visit pageId stream with
      | Some (key, meta) => Some (page_entry key meta)
      | None => None
      end
  end.
Proof.
  revert d. induction stream as [|[key value] stream IH]; intros d; cbn [fold_left first_visit].
  - destruct (map_get pageId d); reflexivity.
  - rewrite IH. unfold record_entry, map_has.
    destruct (normalizeTimestampVals value) as [p meta]. cbn [fst snd].
    destruct (map_get p d) eqn:Ep.
    + destruct (map_get pageId d) eqn:Ed; [reflexivity|].
      destruct (decide (p = pageId)) as [->|]; [congruence|reflexivity].
    + rewrite map_get_set. destruct (decide (p = pageId)) as [->|].
      * rewrite Ep. reflexivity.
      * reflexivity.
Qed.

Lemma emit_destroyed st entries : destroyed st = true -> emit limit st entries = st.
Proof. intros H. destruct entries; cbn; rewrite H; reflexivity. Qed.

Lemma emit_data st entries :
  destroyed st = false -> data (emit limit st entries) = fill limit (data st) entries.
Proof.
  revert st. induction entries as [|entry rest IH]; intros st Hd; cbn; rewrite Hd;
    [reflexivity|].
  unfold reverse_on_data. cbn.
  destruct (limit_reached limit (map_size (data st))).
  - rewrite emit_destroyed; reflexivity.
  - rewrite IH; reflexivity.
Qed.


Lemma fill_unbounded lim d entries :
  lim = None -> fill lim d entries = fold_left record_entry entries d.
Proof.
  intros ->. revert d. induction entries as [|entry rest IH]; intros d; cbn;
    [reflexivity|apply IH].
Qed.

Lemma fill_bounded lim n d entries :
  lim = Some n -> map_size d <= n ->
  fill lim d entries = take n (fold_left record_entry entries d).
Proof.
  intros ->. revert d. induction entries as [|entry rest IH]; intros d Hsize; cbn.
  - symmetry. apply take_ge. exact Hsize.
  - destruct (Nat.leb_spec n (map_size d)) as [Hle|Hlt].
    + destruct (record_all_prefix rest (record_entry d entry)) as [more ->].
      destruct (record_entry_appends d entry) as [->|(k & v & _ & ->)].
      * rewrite take_app_le by (unfold map_size in *; lia).
        symmetry. apply take_ge. unfold map_size in *; lia.
      * rewrite <- app_assoc, take_app_le by (unfold map_size in *; lia).
        symmetry. apply take_ge. unfold map_size in *; lia.
    + apply IH. pose proof (record_entry_size d entry). lia.
Qed.


Lemma map_get_take {V} (m : list (jsval * V)) n k v :
  map_get k (take n m) = Some v -> map_get k m = Some v.
Proof.
  revert n. induction m as [|[k0 w] m IH]; intros [|n]; cbn; try discriminate.
  destruct (decide (k0 = k)); [auto|apply IH].
Qed.

End ReverseRangeLookup.




End Range.

(** ** Latest activity of a page: [augmentIndexLookupDoc] *)

Module Facade.

(** A reverse index document: its [visits] and [bookmarks] sets, elements in
    insertion order, and its other properties. *)
Record IndexLookupDoc := {
  visits : list string;
  bookmarks : list string;
  others : obj;
}.

(** [array[i]]: [undefined] outside the array. *)
Definition array_at {A} (array : list A) (i : Z) : option A :=
  if (i <? 0)%Z then None else array !! Z.to_nat i.

(** [getLatestVisitOrBookmark({ visits, bookmarks })]; [None] is [undefined]. *)
Definition getLatestVisitOrBookmark (doc : IndexLookupDoc) : option string :=
  if (length (visits doc) =? 0)%nat
  then array_at (bookmarks doc) (Z.of_nat (length (bookmarks doc)) - 1)
  else array_at (visits doc) (Z.of_nat (length (visits doc)) - 1).

(** [removeKeyType(key)] on a value that may be [undefined], where
    [key.replace] throws. *)
Definition removeKeyType_of (key : option string) : Result string :=
  match key with
  | Some key => Ok (removeKeyType key)
  | None => Throw (TypeError "Cannot read property 'replace' of undefined")
  end.

(** [{ ...doc, latest }]. *)
Definition with_latest (doc : IndexLookupDoc) (latest : string) : IndexLookupDoc :=
  {| visits := visits doc;
     bookmarks := bookmarks doc;
     others := obj_spread (others doc) [("latest", JStr latest)] |}.

(** [augmentIndexLookupDoc(doc)]. *)
Definition augmentIndexLookupDoc (doc : IndexLookupDoc) : Result IndexLookupDoc :=
  bind (removeKeyType_of (getLatestVisitOrBookmark doc))
       (fun latest => Ok (with_latest doc latest)).

Lemma array_at_last {A} (array : list A) :
  array_at array (Z.of_nat (length array) - 1) = last array.
Proof.
  unfold array_at. destruct array as [|a array]; [reflexivity|].
  destruct (Z.ltb_spec (Z.of_nat (length (a :: array)) - 1) 0) as [Hlt|_];
    [cbn [length] in Hlt; lia|].
  rewrite last_lookup. f_equal. cbn [length]. lia.
Qed.

(** The last element of [visits], or of [bookmarks] when there is no visit. *)
Lemma getLatestVisitOrBookmark_last (doc : IndexLookupDoc) :
  getLatestVisitOrBookmark doc =
  match last (visits doc) with
  | Some visit => Some visit
  | None => last (bookmarks doc)
  end.
Proof.
  unfold getLatestVisitOrBookmark. rewrite !array_at_last.
  destruct (visits doc) as [|v vs]; [reflexivity|].
  cbn [length Nat.eqb].
  destruct (last (v :: vs)) eqn:Ev; [reflexivity|].
  apply last_None in Ev. discriminate.
Qed.

(** What the copy [{ ...doc, latest }] holds. *)
Lemma augmentIndexLookupDoc_Ok (doc : IndexLookupDoc) (key : string) :
  getLatestVisitOrBookmark doc = Some key ->
  exists doc',
    augmentIndexLookupDoc doc = Ok doc' /\
    obj_get "latest" (others doc') = JStr (removeKeyType key) /\
    visits doc' = visits doc /\
    bookmarks doc' = bookmarks doc /\
    forall name, name <> "latest" ->
      obj_get name (others doc') = obj_get name (others doc).
Proof.
  intros Hkey. unfold augmentIndexLookupDoc. rewrite Hkey. cbn.
  eexists. split; [reflexivity|]. cbn. unfold obj_get.
  repeat split.
  - rewrite prop_lookup_obj_set. reflexivity.
  - intros name Hname. rewrite prop_lookup_obj_set.
    destruct (String.eqb_spec "latest" name); [congruence|reflexivity].
Qed.

(** C10: with a visit, the [latest] property of the returned document is
    the last element of [visits] with its key prefix removed, whatever the
    bookmarks are; with no visit but a bookmark, it is the last element of
    [bookmarks] with its prefix removed; the returned document is a copy
    that has the same [visits] and [bookmarks] and differs from the given
    one in [latest] only.  With neither a visit nor a bookmark the timestamp
    is [undefined] and the call throws. *)
Theorem augmentIndexLookupDoc_latest (doc : IndexLookupDoc) :
  match last (visits doc), last (bookmarks doc) with
  | Some visit, _ =>
      exists doc',
        augmentIndexLookupDoc doc = Ok doc' /\
        obj_get "latest" (others doc') = JStr (removeKeyType visit) /\
        visits doc' = visits doc /\
        bookmarks doc' = bookmarks doc /\
        forall name, name <> "latest" ->
          obj_get name (others doc') = obj_get name (others doc)
  | None, Some bookmark =>
      visits doc = [] /\
      exists doc',
        augmentIndexLookupDoc doc = Ok doc' /\
        obj_get "latest" (others doc') = JStr (removeKeyType bookmark) /\
        visits doc' = visits doc /\
        bookmarks doc' = bookmarks doc /\
        forall name, name <> "latest" ->
          obj_get name (others doc') = obj_get name (others doc)
  | None, None =>
      visits doc = [] /\ bookmarks doc = [] /\
      exists e, augmentIndexLookupDoc doc = Throw e
  end.
Proof.
  pose proof (getLatestVisitOrBookmark_last doc) as Hlast.
  destruct (last (visits doc)) as [visit|] eqn:Ev.
  - now apply augmentIndexLookupDoc_Ok.
  - apply last_None in Ev.
    destruct (last (bookmarks doc)) as [bookmark|] eqn:Eb.
    + split; [exact Ev|]. now apply augmentIndexLookupDoc_Ok.
    + apply last_None in Eb. repeat split; [exact Ev|exact Eb|].
      unfold augmentIndexLookupDoc. rewrite Hlast. cbn. eexists. reflexivity.
Qed.

Lemma augmentIndexLookupDoc_latest_witness :
  (exists doc',
     augmentIndexLookupDoc
       {| visits := ["visit/1"; "visit/1512345678901"];
          bookmarks := ["bookmark/9"];
          others := [("url", JStr "example.com")] |} = Ok doc' /\
     obj_get "latest" (others doc') = JStr "1512345678901" /\
     obj_get "url" (others doc') = JStr "example.com") /\
  (exists doc',
     augmentIndexLookupDoc
       {| visits := []; bookmarks := ["bookmark/3"; "bookmark/42"];
          others := [("latest", JStr "old")] |} = Ok doc' /\
     obj_get "latest" (others doc') = JStr "42").
Proof.
  split.
  - destruct (augmentIndexLookupDoc_latest
                {| visits := ["visit/1"; "visit/1512345678901"];
                   bookmarks := ["bookmark/9"];
                   others := [("url", JStr "example.com")] |})
      as (doc' & Hok & Hlatest & _ & _ & Hrest).
    exists doc'. split; [exact Hok|]. split; [exact Hlatest|].
    apply (Hrest "url"). discriminate.
  - destruct (augmentIndexLookupDoc_latest
                {| visits := []; bookmarks := ["bookmark/3"; "bookmark/42"];
                   others := [("latest", JStr "old")] |})
      as (_ & doc' & Hok & Hlatest & _).
    exists doc'. split; [exact Hok|exact Hlatest].
Defined.

End Facade.

(** ** Write serializer: [makeIndexFnConcSafe] *)

Module Serializer.

Section Queue.
(** The shared store, the arguments of the wrapped function, and what its
    promise is fulfilled with. *)
Context {S Args R : Type}.

(** The run of an [async] function: it settles with a result, or it runs up
    to its next [await], having read the store [s] and left [update s]
    there, and resumes as [next s] later. *)
Inductive task :=
| Return (r : Result R)
| Await (update : S -> S) (next : S -> task).

(** A task run to its end with nothing else in between. *)
Fixpoint run (t : task) (s : S) : S * Result R :=
  match t with
  | Return r => (s, r)
  | Await update next => run (next s) (update s)
  end.

(** The function handed to [makeIndexFnConcSafe]. *)
Variable fn : Args -> task.

(** A unit of work on the queue: the function
    [() => fn(...args).then(resolve).catch(reject)] pushed for the call of
    [caller], where [resolve] and [reject] settle the promise that call
    returned.  [body] is what is left of [fn(...args)]. *)
Record job := {
  caller : nat;
  args : Args;
  body : task;
}.

(** The store; the queue with its jobs waiting, oldest first, and its jobs
    started; the promises settled so far, oldest first; and, for the
    statements below, the calls made so far. *)
Record state := {
  store : S;
  pending : list job;
  running : list job;
  settled : list (nat * Result R);
  submitted : list (nat * Args);
}.

Definition init (s0 : S) : state :=
  {| store := s0; pending := []; running := []; settled := []; submitted := [] |}.

(** Modelled from the spec: [indexQueue], which the index module creates
    and exports (it is not among the sources).  The spec has it as "a FIFO
    operation queue ensuring at most one index-mutating operation executes
    at a time": a pushed job waits behind the older ones, the oldest waiting
    job is started when fewer than [indexQueue_concurrency] jobs are
    started, and a job leaves the queue when the promise it returned
    settles. *)
Definition indexQueue_concurrency : nat := 1.

(** [makeIndexFnConcSafe(fn)(...args)], called by [caller]: the job goes to
    the back of the queue. *)
Definition makeIndexFnConcSafe (caller : nat) (args : Args) (st : state) : state :=
  {| store := store st;
     pending := pending st ++ [ {| caller := caller; args := args; body := fn args |} ];
     running := running st;
     settled := settled st;
     submitted := submitted st ++ [(caller, args)] |}.

(** The queue calls its oldest waiting job. *)
Definition start (j : job) (rest : list job) (st : state) : state :=
  {| store := store st;
     pending := rest;
     running := running st ++ [j];
     settled := settled st;
     submitted := submitted st |}.

(** A started job runs up to its next [await]. *)
Definition advance (before : list job) (j : job) (after : list job)
    (update : S -> S) (next : S -> task) (st : state) : state :=
  {| store := update (store st);
     pending := pending st;
     running :=
       before ++ {| caller := caller j; args := args j; body := next (store st) |}
              :: after;
     settled := settled st;
     submitted := submitted st |}.

(** [fn(...args)] has settled with [r]: [.then(resolve).catch(reject)]
    settles the promise of the call with it, and the promise the job
    returned is fulfilled either way, so the queue sees the job as done. *)
Definition settle (before : list job) (j : job) (after : list job)
    (r : Result R) (st : state) : state :=
  {| store := store st;
     pending := pending st;
     running := before ++ after;
     settled := settled st ++ [(caller j, r)];
     submitted := submitted st |}.

(** Modelled from the spec: the moves of [indexQueue] (not among the
    sources) and of the jobs it has started.  The queue starts its oldest
    waiting job while fewer than [concurrency] jobs are started; a started
    job runs on from [await] to [await], and leaves the queue when it has
    settled. *)
Inductive queue_step (concurrency : nat) : state -> state -> Prop :=
| step_start st j rest :
    pending st = j :: rest ->
    length (running st) < concurrency ->
    queue_step concurrency st (start j rest st)
| step_await st before j after update next :
    running st = before ++ j :: after ->
    body j = Await update next ->
    queue_step concurrency st (advance before j after update next st)
| step_settle st before j after r :
    running st = before ++ j :: after ->
    body j = Return r ->
    queue_step concurrency st (settle before j after r st).

(** A step of the whole: a caller calls the wrapped function, at any time,
    or the queue moves. *)
Inductive step (concurrency : nat) : state -> state -> Prop :=
| step_call st caller args :
    step concurrency st (makeIndexFnConcSafe caller args st)
| step_queue st st' :
    queue_step concurrency st st' -> step concurrency st st'.

(** The states a store [s0] and an empty queue can get into; the index is
    in one of [reachable indexQueue_concurrency s0]. *)
Inductive reachable (concurrency : nat) (s0 : S) : state -> Prop :=
| reach_init : reachable concurrency s0 (init s0)
| reach_step st st' :
    reachable concurrency s0 st -> step concurrency st st' ->
    reachable concurrency s0 st'.

(** Schedules, to run the model: a call, the queue starting its oldest
    waiting job, or the [i]-th started job moving on. *)
Inductive action :=
| ACall (caller : nat) (args : Args)
| AStart
| AMove (i : nat).

Definition act (concurrency : nat) (a : action) (st : state) : option state :=
  match a with
  | ACall caller args => Some (makeIndexFnConcSafe caller args st)
  | AStart =>
      match pending st with
      | j :: rest =>
          if decide (length (running st) < concurrency)
          then Some (start j rest st) else None
      | [] => None
      end
  | AMove i =>
      match running st !! i with
      | Some j =>
          let before := take i (running st) in
          let after := drop (Datatypes.S i) (running st) in
          match body j with
          | Return r => Some (settle before j after r st)
          | Await update next => Some (advance before j after update next st)
          end
      | None => None
      end
  end.

Fixpoint play (concurrency : nat) (schedule : list action) (st : state)
  : option state :=
  match schedule with
  | [] => Some st
  | a :: schedule' =>
      match act concurrency a st with
      | Some st' => play concurrency schedule' st'
      | None => None
      end
  end.

(** The calls run one after the other, each to its end: the store they leave
    and what each of them settles with. *)
Fixpoint serial (s : S) (calls : list (nat * Args)) : S * list (nat * Result R) :=
  match calls with
  | [] => (s, [])
  | (caller, args) :: rest =>
      let (s', r) := run (fn args) s in
      let (s'', log) := serial s' rest in
      (s'', (caller, r) :: log)
  end.

Definition call_of (j : job) : nat * Args := (caller j, args j).

(** What holds of every reachable state; [done] are the calls whose job has
    left the queue. *)
Definition invariant (s0 : S) (st : state) : Prop :=
  exists done,
    submitted st = done ++ map call_of (running st ++ pending st) /\
    length (running st) <= 1 /\
    Forall (fun j => body j = fn (args j)) (pending st) /\
    settled st = snd (serial s0 done) /\
    match running st with
    | [] => store st = fst (serial s0 done)
    | j :: _ => run (body j) (store st) = run (fn (args j)) (fst (serial s0 done))
    end.

End Queue.

(** *** A counter incremented through the queue *)

(** An increment that reads the counter, awaits, and writes one more than
    it read. *)
Definition increment (_ : unit) : @task nat unit :=
  Await (fun s => s) (fun seen =>
  Await (fun _ => seen + 1) (fun _ =>
  Return (Ok tt))).

(** The schedule in which two increments read before either has written. *)
Definition interleaved : list (@action unit) :=
  [ ACall 0 tt; ACall 1 tt; AStart; AStart;
    AMove 0; AMove 1; AMove 0; AMove 1; AMove 0; AMove 0 ].

(** *** The queue at work *)

Section QueueFacts.
Context {S Args R : Type} (fn : Args -> @task S R).

Local Abbreviation job := (@job S Args R).
Local Abbreviation state := (@state S Args R).
Local Abbreviation makeIndexFnConcSafe := (makeIndexFnConcSafe fn).
Local Abbreviation step := (step fn).
Local Abbreviation reachable := (reachable fn).
Local Abbreviation act := (act fn).
Local Abbreviation play := (play fn).
Local Abbreviation serial := (serial fn).
Local Abbreviation invariant := (invariant fn).

Lemma serial_app s calls1 calls2 :
  serial s (calls1 ++ calls2) =
  (fst (serial (fst (serial s calls1)) calls2),
   snd (serial s calls1) ++ snd (serial (fst (serial s calls1)) calls2)).
Proof.
  revert s. induction calls1 as [|[c a] calls1 IH]; intros s; cbn.
  - destruct (serial s calls2); reflexivity.
  - destruct (run (fn a) s) as [s' r]. rewrite IH.
    destruct (serial s' calls1) as [s1 log1]. cbn.
    destruct (serial s1 calls2); reflexivity.
Qed.

Lemma serial_snoc s calls c a :
  serial s (calls ++ [(c, a)]) =
  (fst (run (fn a) (fst (serial s calls))),
   snd (serial s calls) ++ [(c, snd (run (fn a) (fst (serial s calls))))]).
Proof.
  rewrite serial_app. cbn.
  destruct (run (fn a) (fst (serial s calls))); reflexivity.
Qed.

Lemma serial_callers s calls : map fst (snd (serial s calls)) = map fst calls.
Proof.
  revert s. induction calls as [|[c a] calls IH]; intros s; cbn; [reflexivity|].
  destruct (run (fn a) s) as [s' r]. specialize (IH s').
  destruct (serial s' calls). cbn in *. now rewrite IH.
Qed.

Lemma single_running (l before after : list job) j :
  length l <= 1 -> l = before ++ j :: after -> before = [] /\ after = [].
Proof.
  intros Hlen ->. rewrite length_app in Hlen. cbn in Hlen.
  destruct before; [|cbn in Hlen; lia]. destruct after; [auto|cbn in Hlen; lia].
Qed.

Lemma invariant_init s0 : invariant s0 (init s0).
Proof.
  exists []. cbn. repeat split; auto.
Qed.

Lemma invariant_step s0 st st' :
  invariant s0 st -> step indexQueue_concurrency st st' -> invariant s0 st'.
Proof.
  intros (done & Hsub & Hlen & Hpend & Hset & Hrun) Hstep.
  destruct Hstep as [st c a|st st' Hq].
  - exists done. cbn [makeIndexFnConcSafe submitted running pending settled store].
    split; [|split; [|split; [|split]]]; try assumption.
    + rewrite Hsub, !map_app, <- !app_assoc. reflexivity.
    + apply Forall_app. split; [assumption|]. repeat constructor.
  - destruct Hq as [st j rest Hp Hfree|st before j after update next Hr Hb
                   |st before j after r Hr Hb].
    + unfold indexQueue_concurrency in Hfree.
      destruct (running st) as [|j0 l] eqn:Er; [|cbn in Hfree; lia].
      rewrite Hp in Hsub, Hpend. apply Forall_cons in Hpend as [Hj Hrest].
      exists done. cbn [start submitted running pending settled store].
      rewrite Er. cbn [app length].
      split; [|split; [|split; [|split]]]; try assumption; try (cbn; lia).
      rewrite Hj, Hrun. reflexivity.
    + destruct (single_running _ _ _ _ Hlen Hr) as [-> ->]. cbn [app] in Hr.
      rewrite Hr in Hsub, Hrun. exists done.
      cbn [advance submitted running pending settled store app length body args].
      split; [|split; [|split; [|split]]]; try assumption; try (cbn; lia).
      rewrite <- Hrun, Hb. reflexivity.
    + destruct (single_running _ _ _ _ Hlen Hr) as [-> ->]. cbn [app] in Hr.
      rewrite Hr in Hsub, Hrun. rewrite Hb in Hrun. cbn [run app map] in Hrun, Hsub.
      exists (done ++ [(caller j, args j)]).
      cbn [settle submitted running pending settled store app length].
      rewrite serial_snoc, <- Hrun. cbn [fst snd].
      split; [|split; [|split; [|split]]]; try assumption; try (cbn; lia).
      * rewrite Hsub, <- app_assoc. reflexivity.
      * rewrite Hset. reflexivity.
      * reflexivity.
Qed.

Lemma reachable_invariant s0 st :
  reachable indexQueue_concurrency s0 st -> invariant s0 st.
Proof.
  induction 1 as [|st st' _ IH Hstep]; [apply invariant_init|].
  eapply invariant_step; eassumption.
Qed.

Lemma act_step concurrency a st st' :
  act concurrency a st = Some st' -> step concurrency st st'.
Proof.
  destruct a as [c x| |i]; cbn.
  - intros [= <-]. constructor.
  - destruct (pending st) as [|j rest] eqn:Ep; [discriminate|].
    case_decide; [|discriminate]. intros [= <-].
    apply step_queue. now constructor.
  - destruct (running st !! i) as [j|] eqn:Ei; [|discriminate].
    apply take_drop_middle in Ei.
    destruct (body j) as [r|update next] eqn:Eb; intros [= <-]; apply step_queue.
    + now apply step_settle.
    + now apply step_await.
Qed.

Lemma play_reachable concurrency s0 schedule st st' :
  reachable concurrency s0 st -> play concurrency schedule st = Some st' ->
  reachable concurrency s0 st'.
Proof.
  revert st. induction schedule as [|a schedule IH]; intros st Hr; cbn.
  - intros [= <-]. assumption.
  - destruct (act concurrency a st) as [st1|] eqn:Ea; [|discriminate].
    apply IH. eapply reach_step; [eassumption|]. eapply act_step, Ea.
Qed.

Lemma queue_progress (st : state) :
  running st <> [] \/ pending st <> [] ->
  exists st', queue_step indexQueue_concurrency st st'.
Proof.
  intros Hwork. destruct (running st) as [|j l] eqn:Er.
  - destruct (pending st) as [|j rest] eqn:Ep; [destruct Hwork; congruence|].
    eexists. apply (step_start _ st j rest Ep). rewrite Er. cbn.
    unfold indexQueue_concurrency. lia.
  - destruct (body j) as [r|update next] eqn:Eb; eexists.
    + apply (step_settle _ st [] j l r Er Eb).
    + apply (step_await _ st [] j l update next Er Eb).
Qed.

Lemma finish_job concurrency s0 (t : task) :
  forall st j,
    reachable concurrency s0 st -> running st = [j] -> body j = t ->
    exists st', reachable concurrency s0 st' /\ running st' = [] /\
                pending st' = pending st /\ submitted st' = submitted st.
Proof.
  induction t as [r|update next IH]; intros st j Hreach Hrun Hbody.
  - exists (settle [] j [] r st). repeat split.
    eapply reach_step; [eassumption|].
    apply step_queue. now apply step_settle.
  - destruct (IH (store st) (advance [] j [] update next st)
                {| caller := caller j; args := args j; body := next (store st) |})
      as (st' & ? & ? & ? & ?); [|reflexivity|reflexivity|eauto].
    eapply reach_step; [eassumption|].
    apply step_queue. now apply step_await.
Qed.

Lemma drain_queue s0 n :
  forall st,
    reachable indexQueue_concurrency s0 st -> running st = [] ->
    length (pending st) = n ->
    exists st', reachable indexQueue_concurrency s0 st' /\ running st' = [] /\
                pending st' = [] /\ submitted st' = submitted st.
Proof.
  induction n as [|n IH]; intros st Hreach Hrun Hlen.
  - exists st. repeat split; try assumption.
    now apply length_zero_iff_nil.
  - destruct (pending st) as [|j rest] eqn:Ep; [discriminate|].
    assert (Hstart : reachable indexQueue_concurrency s0 (start j rest st)).
    { eapply reach_step; [eassumption|]. apply step_queue.
      apply step_start; [assumption|]. rewrite Hrun. cbn.
      unfold indexQueue_concurrency. lia. }
    destruct (finish_job _ s0 (body j) (start j rest st) j Hstart)
      as (st1 & Hreach1 & Hrun1 & Hpend1 & Hsub1); [cbn; now rewrite Hrun|reflexivity|].
    destruct (IH st1 Hreach1 Hrun1) as (st2 & ? & ? & ? & Hsub2).
    { rewrite Hpend1. cbn in *. lia. }
    exists st2. repeat split; try assumption.
    rewrite Hsub2, Hsub1. reflexivity.
Qed.

Lemma submit_all concurrency s0 calls :
  exists st, reachable concurrency s0 st /\ submitted st = calls /\ running st = [].
Proof.
  induction calls as [|[c a] calls (st & Hreach & Hsub & Hrun)] using rev_ind.
  - exists (init s0). repeat split. constructor.
  - exists (makeIndexFnConcSafe c a st). repeat split.
    + eapply reach_step; [eassumption|]. constructor.
    + cbn. now rewrite Hsub.
    + assumption.
Qed.

Lemma quiescent_serial s0 st :
  reachable indexQueue_concurrency s0 st ->
  running st = [] -> pending st = [] ->
  (store st, settled st) = serial s0 (submitted st).
Proof.
  intros Hreach Hr Hp.
  destruct (reachable_invariant _ _ Hreach) as (done & Hsub & _ & _ & Hset & Hrun).
  rewrite Hr in Hrun, Hsub. rewrite Hp in Hsub.
  cbn in Hsub. rewrite app_nil_r in Hsub. subst done.
  rewrite Hrun, Hset. now destruct (serial s0 (submitted st)).
Qed.

Lemma calls_complete s0 calls :
  exists st,
    reachable indexQueue_concurrency s0 st /\ submitted st = calls /\
    running st = [] /\ pending st = [].
Proof.
  destruct (submit_all indexQueue_concurrency s0 calls) as (st & Hreach & Hsub & Hrun).
  destruct (drain_queue s0 _ st Hreach Hrun eq_refl) as (st' & ? & ? & ? & Hsub').
  exists st'. repeat split; try assumption. now rewrite Hsub'.
Qed.

(** C1: whatever the callers do and whenever they call, at most one job is
    started at a time; the jobs leave the queue in the order of the calls,
    each settling the promise of its own call with the result of its own
    run, a failure like a success, and the results and the store are those
    of the calls run one after the other; as long as a job is left the queue
    can move, whatever the earlier jobs have settled with; and any calls can
    be run to the end. *)
Theorem makeIndexFnConcSafe_serializes (s0 : S) :
  (forall st,
     reachable indexQueue_concurrency s0 st ->
     length (running st) <= 1 /\
     map fst (settled st) ++ map caller (running st ++ pending st)
       = map fst (submitted st) /\
     (exists done,
        submitted st = done ++ map call_of (running st ++ pending st) /\
        settled st = snd (serial s0 done)) /\
     (running st = [] -> pending st = [] ->
      (store st, settled st) = serial s0 (submitted st)) /\
     (running st <> [] \/ pending st <> [] ->
      exists st', queue_step indexQueue_concurrency st st')) /\
  (forall calls,
     exists st,
       reachable indexQueue_concurrency s0 st /\ submitted st = calls /\
       running st = [] /\ pending st = []).
Proof.
  split.
  - intros st Hreach.
    destruct (reachable_invariant _ _ Hreach) as (done & Hsub & Hlen & _ & Hset & Hrun).
    split; [exact Hlen|]. split; [|split; [|split]].
    + rewrite Hsub, Hset, !map_app, serial_callers, !map_map. reflexivity.
    + exists done. split; assumption.
    + now apply quiescent_serial.
    + apply queue_progress.
  - apply calls_complete.
Qed.

End QueueFacts.

Lemma serial_increment s calls :
  fst (serial increment s calls) = s + length calls.
Proof.
  revert s. induction calls as [|[c []] calls IH]; intros s; cbn; [lia|].
  specialize (IH (s + 1)). destruct (serial increment (s + 1) calls). cbn in *. lia.
Qed.

(** A hundred wrapped increments, called in any order and at any time while
    the queue works, leave the counter at a hundred and settle in the order
    of the calls; and they can all be run. *)
Lemma hundred_increments :
  (forall st,
     reachable increment indexQueue_concurrency 0 st ->
     length (submitted st) = 100 -> running st = [] -> pending st = [] ->
     store st = 100 /\ map fst (settled st) = map fst (submitted st)) /\
  (exists st,
     reachable increment indexQueue_concurrency 0 st /\
     length (submitted st) = 100 /\ running st = [] /\ pending st = []).
Proof.
  split.
  - intros st Hreach Hlen Hr Hp.
    pose proof (quiescent_serial increment 0 st Hreach Hr Hp) as Hs.
    pose proof (serial_increment 0 (submitted st)) as Hc.
    pose proof (serial_callers increment 0 (submitted st)) as Hcallers.
    rewrite <- Hs in Hc, Hcallers. cbn in Hc, Hcallers. split; [lia|assumption].
  - destruct (calls_complete increment 0 (map (fun c => (c, tt)) (seq 0 100)))
      as (st & Hreach & Hsub & Hr & Hp).
    exists st. repeat split; try assumption.
    rewrite Hsub, length_map, length_seq. reflexivity.
Qed.

Lemma makeIndexFnConcSafe_serializes_witness :
  length (running (makeIndexFnConcSafe increment 0 tt (init 0))) <= 1 /\
  exists st,
    reachable increment indexQueue_concurrency 0 st /\
    submitted st = [(0, tt); (1, tt)] /\ running st = [] /\ pending st = [].
Proof.
  destruct (makeIndexFnConcSafe_serializes increment 0) as [Hsafe Hlive].
  split; [|exact (Hlive [(0, tt); (1, tt)])].
  apply Hsafe. eapply reach_step; constructor.
Defined.

(** With two jobs started at a time an update is lost; the queue of the
    index refuses that schedule. *)
Lemma interleaved_increments :
  (exists st,
     play increment 2 interleaved (init 0) = Some st /\
     running st = [] /\ pending st = [] /\ store st = 1) /\
  play increment indexQueue_concurrency interleaved (init 0) = None.
Proof.
  split; [|reflexivity].
  eexists. split; [reflexivity|]. repeat split.
Qed.

End Serializer.

(** ** More on the key codec *)

Module KeyCodecFacts.

Ltac case_namespace ns :=
  match goal with
  | |- context [String.eqb ?a ns] =>
      destruct (String.eqb_spec a ns) as [<-|_]
  end.

(** The namespaces of [keyGen] are the alternatives of [removeKeyType], and
    an encoder puts the namespace and a slash before the token. *)
Lemma keyGen_encoder_form namespace encode :
  prop_lookup namespace keyGen = Some encode ->
  namespace ∈ keyTypes /\ forall token, encode token = namespace +:+ "/" +:+ token.
Proof.
  unfold keyGen. cbn [prop_lookup].
  repeat (case_namespace namespace;
          [intros [= <-]; split;
           [apply (bool_decide_unpack _); vm_compute; exact I
           |intros; reflexivity]|]).
  discriminate.
Qed.

Lemma match_keyType_Some alts key rest :
  match_keyType alts key = Some rest ->
  exists alt, alt ∈ alts /\ key = (alt +:+ "/") +:+ rest.
Proof.
  induction alts as [|a alts IH]; cbn; [discriminate|].
  destruct (strip_prefix (a +:+ "/") key) as [r|] eqn:E.
  - intros [= ->]. exists a. split; [apply list_elem_of_here|].
    now apply strip_prefix_Some.
  - intros H. destruct (IH H) as (alt & Hin & ->).
    exists alt. split; [now apply list_elem_of_further|reflexivity].
Qed.

(** Two keys made by [keyGen] are equal only if they were made in the same
    namespace from the same token: the namespaces do not collide. *)
Theorem keyGen_no_collision (namespace1 namespace2 : string)
    (encode1 encode2 : string -> string) (token1 token2 : string) :
  prop_lookup namespace1 keyGen = Some encode1 ->
  prop_lookup namespace2 keyGen = Some encode2 ->
  encode1 token1 = encode2 token2 ->
  namespace1 = namespace2 /\ token1 = token2.
Proof.
  unfold keyGen. cbn [prop_lookup].
  repeat (case_namespace namespace1;
          [intros [= <-];
           repeat (case_namespace namespace2;
                   [intros [= <-] H; cbv in H; split; congruence|]);
           discriminate|]).
  discriminate.
Qed.

Lemma keyGen_no_collision_witness :
  prop_lookup "tag" keyGen = Some (fun key => "tag/" +:+ key) /\
  ("tag" = "tag" /\ "rocq" = "rocq").
Proof.
  split; [reflexivity|].
  exact (keyGen_no_collision "tag" "tag" _ _ "rocq" "rocq" eq_refl eq_refl eq_refl).
Defined.

(** [removeKeyType] takes one known prefix off the front of a key, or
    nothing: what it returns is the key, or the key without one
    [<namespace>/] at its start. *)
Theorem removeKeyType_strips_one_prefix (key : string) :
  removeKeyType key = key \/
  exists alt, alt ∈ keyTypes /\ key = (alt +:+ "/") +:+ removeKeyType key.
Proof.
  unfold removeKeyType.
  destruct (match_keyType keyTypes key) as [rest|] eqn:E; [|now left].
  right. now apply match_keyType_Some.
Qed.

End KeyCodecFacts.

Import KeyCodecFacts.

(** ** More on term extraction *)

Module TermsFacts.
Import Terms.

(** Every term [extractContent] returns is the encoding of a piece of the
    content, lowercased, that is not empty; [removeKeyType] gives that
    piece back. *)
Theorem extractContent_terms_decode (content : string) (separator : separator)
    (key : string) (encode : string -> string) (terms : list string) :
  prop_lookup key keyGen = Some encode ->
  extractContent content separator key = Ok terms ->
  forall term, term ∈ terms ->
    exists word,
      word ∈ split separator content /\
      term = encode (toLowerCase word) /\
      removeKeyType term = toLowerCase word /\
      toLowerCase word <> "".
Proof.
  intros Hkey Hterms term Hin.
  unfold extractContent in Hterms.
  rewrite (mapM_encode_word _ _ _ Hkey) in Hterms. cbn in Hterms.
  injection Hterms as <-.
  apply list_elem_of_In, filter_In in Hin as [Hin Hkeep].
  apply in_map_iff in Hin as (word & <- & Hword).
  exists word. split; [now apply list_elem_of_In|]. split; [reflexivity|].
  destruct (keyGen_encoder_form _ _ Hkey) as [Hns Hform].
  split.
  - rewrite Hform. now apply removeKeyType_known.
  - intros Hempty. rewrite (endsWith_slash_encoded _ _ _ Hkey), Hempty in Hkeep.
    discriminate.
Qed.

Lemma extractContent_terms_decode_witness :
  prop_lookup "title" keyGen = Some (fun key => "title/" +:+ key) /\
  extractContent "Hello  World" (SepString " ") "title"
    = Ok ["title/hello"; "title/world"] /\
  exists word,
    word ∈ split (SepString " ") "Hello  World" /\
    "title/world" = "title/" +:+ toLowerCase word /\
    removeKeyType "title/world" = toLowerCase word /\
    toLowerCase word <> "".
Proof.
  split; [reflexivity|]. split; [reflexivity|].
  apply (extractContent_terms_decode "Hello  World" (SepString " ") "title"
           (fun key => "title/" +:+ key) ["title/hello"; "title/world"]
           eq_refl eq_refl).
  apply (bool_decide_unpack _). vm_compute. exact I.
Defined.

End TermsFacts.

(** ** More on the range scans: [rangeLookup], [grabExistingKeys] *)

Module RangeFacts.
Import Range.

(** The ['data'] handler of [rangeLookup]. *)
Definition range_on_data (data : list (string * jsval)) (entry : string * tsval)
  : list (string * jsval) :=
  let (key, value) := entry in
  let (pageId, _) := normalizeTimestampVals value in
  map_set key pageId data.

(** [rangeLookup(iteratorOpts)]: the map the promise resolves to at the
    ['end'] of the stream. *)
Definition rangeLookup (iteratorOpts : iteratorOpts) (db : list (string * tsval))
  : list (string * jsval) :=
  fold_left range_on_data (createReadStream iteratorOpts db) [].

(** A store whose entries are listed in ascending key order. *)
Definition ascending (db : list (string * tsval)) : Prop :=
  StronglySorted (fun e1 e2 => String.leb (fst e1) (fst e2) = true) db.

(** The same for a stream that runs from the highest key down. *)
Definition descending (stream : list (string * tsval)) : Prop :=
  StronglySorted (fun e1 e2 => String.leb (fst e2) (fst e1) = true) stream.

Definition sorted_visits : list (string * tsval) :=
  [ ("visit/1", TsBare "c");
    ("visit/2", TsRecord [("pageId", JStr "a"); ("scroll", JStr "50")]);
    ("visit/3", TsBare "b");
    ("visit/4", TsBare "a") ].

Definition visit_bounds : iteratorOpts :=
  {| gte := Some "visit/"; lte := Some ("visit/" +:+ MAX_SORT_CHAR); reverse := false |}.

Lemma map_get_elem_of {K V} `{EqDecision K} (m : list (K * V)) k v :
  NoDup (map fst m) -> (k, v) ∈ m -> map_get k m = Some v.
Proof.
  induction m as [|[k0 w] m IH]; cbn; intros Hnd Hin; [inversion Hin|].
  apply NoDup_cons in Hnd as [Hn Hnd].
  apply elem_of_cons in Hin as [[= -> ->]|Hin].
  - now rewrite decide_True.
  - destruct (decide (k0 = k)) as [->|]; [|auto].
    exfalso. apply Hn. apply list_elem_of_In, in_map_iff.
    exists (k, v). split; [reflexivity|now apply list_elem_of_In].
Qed.

Lemma map_get_Some_elem_of {K V} `{EqDecision K} (m : list (K * V)) k v :
  map_get k m = Some v -> (k, v) ∈ m.
Proof.
  induction m as [|[k0 w] m IH]; cbn; [discriminate|].
  destruct (decide (k0 = k)) as [->|].
  - intros [= ->]. apply list_elem_of_here.
  - intros H. apply list_elem_of_further. auto.
Qed.

Lemma range_scan_fresh stream data :
  NoDup (map_keys data ++ map fst stream) ->
  fold_left range_on_data stream data =
  data ++ map (fun e => (fst e, fst (normalizeTimestampVals (snd e)))) stream.
Proof.
  revert data. induction stream as [|[key value] stream IH]; intros data Hnd;
    cbn [fold_left map].
  - now rewrite app_nil_r.
  - assert (Hnin : key ∉ map_keys data).
    { apply NoDup_app in Hnd as (_ & Hd & _). intros Hin.
      apply (Hd _ Hin). apply list_elem_of_here. }
    unfold range_on_data at 2.
    destruct (normalizeTimestampVals value) as [pageId meta] eqn:En.
    rewrite (map_set_new _ _ _ Hnin), IH.
    + rewrite <- app_assoc. cbn [fst snd]. rewrite En. reflexivity.
    + unfold map_keys in *. rewrite map_app, <- app_assoc. exact Hnd.
Qed.

(** [rangeLookup] resolves with one entry per key of the range, in the order
    of the scan, each key with the page identifier of its value; what else
    the value holds is left out. *)
Theorem rangeLookup_page_ids (iteratorOpts : iteratorOpts)
    (db : list (string * tsval)) :
  NoDup (map fst db) ->
  rangeLookup iteratorOpts db =
  map (fun entry => (fst entry, fst (normalizeTimestampVals (snd entry))))
      (createReadStream iteratorOpts db).
Proof.
  intros Hnd. unfold rangeLookup.
  rewrite range_scan_fresh; [reflexivity|].
  now apply createReadStream_NoDup.
Qed.

Lemma rangeLookup_page_ids_witness :
  NoDup (map fst sorted_visits) /\
  rangeLookup visit_bounds sorted_visits =
  [ ("visit/1", JStr "c"); ("visit/2", JStr "a");
    ("visit/3", JStr "b"); ("visit/4", JStr "a") ].
Proof.
  assert (Hnd : NoDup (map fst sorted_visits)).
  { apply (bool_decide_unpack _). vm_compute. exact I. }
  split; [exact Hnd|].
  exact (rangeLookup_page_ids visit_bounds sorted_visits Hnd).
Defined.

(** [normalizeTimestampVals] loses nothing of a structured value: [pageId]
    is its [pageId] property, and [meta] has every other property with its
    value, and no [pageId]. *)
Theorem normalizeTimestampVals_splits (props : obj) :
  fst (normalizeTimestampVals (TsRecord props)) = obj_get "pageId" props /\
  prop_lookup "pageId" (snd (normalizeTimestampVals (TsRecord props))) = None /\
  forall name, name <> "pageId" ->
    prop_lookup name (snd (normalizeTimestampVals (TsRecord props))) =
    prop_lookup name props.
Proof.
  cbn [normalizeTimestampVals fst snd]. split; [reflexivity|].
  unfold obj_rest. split.
  - induction props as [|[n v] props IH]; [reflexivity|].
    cbn [List.filter fst].
    destruct (String.eqb_spec n "pageId") as [->|Hne]; cbn [negb]; [exact IH|].
    cbn [prop_lookup].
    destruct (String.eqb_spec n "pageId"); [contradiction|exact IH].
  - intros name Hname. induction props as [|[n v] props IH]; [reflexivity|].
    cbn [List.filter fst prop_lookup].
    destruct (String.eqb_spec n "pageId") as [->|Hne]; cbn [negb prop_lookup].
    + destruct (String.eqb_spec "pageId" name); [congruence|exact IH].
    + destruct (String.eqb n name); [reflexivity|exact IH].
Qed.

Lemma createReadStream_elem_of {V} opts (db : list (string * V)) entry :
  entry ∈ createReadStream opts db <->
  entry ∈ db /\ in_bounds opts (fst entry) = true.
Proof.
  unfold createReadStream. rewrite !list_elem_of_In.
  destruct (reverse opts); [rewrite <- in_rev|]; rewrite filter_In; reflexivity.
Qed.

Lemma first_visit_elem pageId stream key meta :
  first_visit pageId stream = Some (key, meta) ->
  exists value, (key, value) ∈ stream /\ normalizeTimestampVals value = (pageId, meta).
Proof.
  induction stream as [|[k v] stream IH]; cbn; [discriminate|].
  destruct (decide (fst (normalizeTimestampVals v) = pageId)) as [Hid|_].
  - intros [= -> <-]. exists v. split; [apply list_elem_of_here|].
    rewrite <- Hid. now destruct (normalizeTimestampVals v).
  - intros H. destruct (IH H) as (value & Hin & Hn).
    exists value. split; [now apply list_elem_of_further|assumption].
Qed.

Lemma first_visit_found pageId stream entry :
  entry ∈ stream -> fst (normalizeTimestampVals (snd entry)) = pageId ->
  exists key meta, first_visit pageId stream = Some (key, meta).
Proof.
  induction stream as [|[k v] stream IH]; intros Hin Hid; [inversion Hin|].
  cbn. destruct (decide (fst (normalizeTimestampVals v) = pageId)); [eauto|].
  apply elem_of_cons in Hin as [->|Hin]; [contradiction|auto].
Qed.

Lemma unlimited_data opts db :
  data (reverseRangeLookup None opts db) =
  latest_by_page
    (createReadStream {| gte := gte opts; lte := lte opts; reverse := true |} db).
Proof.
  unfold reverseRangeLookup. rewrite emit_data by reflexivity.
  now apply fill_unbounded.
Qed.

Lemma limited_data n opts db :
  data (reverseRangeLookup (Some n) opts db) =
  take n (latest_by_page
    (createReadStream {| gte := gte opts; lte := lte opts; reverse := true |} db)).
Proof.
  unfold reverseRangeLookup. rewrite emit_data by reflexivity.
  apply fill_bounded; [reflexivity|unfold map_size; cbn; lia].
Qed.

Lemma page_recorded stream pageId :
  pageId ∈ map_keys (latest_by_page stream) <->
  exists entry, entry ∈ stream /\ fst (normalizeTimestampVals (snd entry)) = pageId.
Proof.
  pose proof (record_all_get stream [] pageId) as Hget. cbn [map_get] in Hget.
  fold (latest_by_page stream) in Hget.
  pose proof (map_get_None pageId (latest_by_page stream)) as Hnone.
  split.
  - intros Hin. destruct (first_visit pageId stream) as [[key meta]|] eqn:Ef.
    + destruct (first_visit_elem _ _ _ _ Ef) as (value & Hv & Hn).
      exists (key, value). split; [assumption|]. cbn. now rewrite Hn.
    + exfalso. apply Hnone; assumption.
  - intros (entry & Hin & Hid).
    destruct (first_visit_found _ _ _ Hin Hid) as (key & meta & Ef).
    rewrite Ef in Hget.
    destruct (decide (pageId ∈ map_keys (latest_by_page stream))) as [|Hn];
      [assumption|].
    apply Hnone in Hn. congruence.
Qed.

(** With no limit, the pages [reverseRangeLookup] returns are the page
    identifiers [rangeLookup] returns for the same bounds: the two scans
    see the same pages. *)
Theorem reverseRangeLookup_pages_of_rangeLookup (iteratorOpts : iteratorOpts)
    (db : list (string * tsval)) :
  NoDup (map fst db) ->
  forall pageId,
    pageId ∈ map_keys (data (reverseRangeLookup None iteratorOpts db)) <->
    exists key, map_get key (rangeLookup iteratorOpts db) = Some pageId.
Proof.
  intros Hnd pageId.
  rewrite unlimited_data, page_recorded. unfold rangeLookup.
  rewrite range_scan_fresh by now apply createReadStream_NoDup.
  cbn [app]. split.
  - intros ([key value] & Hin & Hid). exists key.
    apply map_get_elem_of.
    + rewrite map_map. cbn. now apply createReadStream_NoDup.
    + apply list_elem_of_In, in_map_iff. exists (key, value).
      split; [cbn in *; now rewrite Hid|].
      apply list_elem_of_In, createReadStream_elem_of.
      apply createReadStream_elem_of in Hin. exact Hin.
  - intros (key & Hget). apply map_get_Some_elem_of in Hget.
    apply list_elem_of_In, in_map_iff in Hget as (entry & [= <- <-] & Hin).
    exists entry. split; [|reflexivity].
    apply createReadStream_elem_of.
    apply list_elem_of_In, createReadStream_elem_of in Hin. exact Hin.
Qed.

Lemma reverseRangeLookup_pages_of_rangeLookup_witness :
  NoDup (map fst sorted_visits) /\
  (JStr "b" ∈ map_keys (data (reverseRangeLookup None visit_bounds sorted_visits)) <->
   exists key, map_get key (rangeLookup visit_bounds sorted_visits) = Some (JStr "b")).
Proof.
  assert (Hnd : NoDup (map fst sorted_visits)).
  { apply (bool_decide_unpack _). vm_compute. exact I. }
  split; [exact Hnd|].
  exact (reverseRangeLookup_pages_of_rangeLookup visit_bounds sorted_visits Hnd
           (JStr "b")).
Defined.

(** A lower limit gives the first entries of what a higher limit, or none,
    gives: raising the limit only appends pages. *)
Theorem reverseRangeLookup_limit_prefix (n m : nat) (iteratorOpts : iteratorOpts)
    (db : list (string * tsval)) :
  n <= m ->
  data (reverseRangeLookup (Some n) iteratorOpts db) =
    take n (data (reverseRangeLookup (Some m) iteratorOpts db)) /\
  data (reverseRangeLookup (Some m) iteratorOpts db) =
    take m (data (reverseRangeLookup None iteratorOpts db)).
Proof.
  intros Hle. rewrite !limited_data, unlimited_data. split; [|reflexivity].
  rewrite take_take. f_equal. lia.
Qed.

Lemma reverseRangeLookup_limit_prefix_witness :
  1 <= 2 /\
  data (reverseRangeLookup (Some 1) visit_bounds sorted_visits) =
    take 1 (data (reverseRangeLookup (Some 2) visit_bounds sorted_visits)).
Proof.
  split; [lia|].
  apply (reverseRangeLookup_limit_prefix 1 2 visit_bounds sorted_visits). lia.
Defined.

Lemma leb_refl s : String.leb s s = true.
Proof.
  unfold String.leb.
  assert (H : String.compare s s = Eq); [|now rewrite H].
  induction s as [|a s IH]; cbn; [reflexivity|].
  unfold Ascii.compare. now rewrite N.compare_refl.
Qed.

(** A key between a prefix and the prefix followed by anything starts with
    the prefix. *)
Lemma range_prefix p m k :
  String.leb p k = true -> String.leb k (p +:+ m) = true ->
  exists s, k = p +:+ s.
Proof.
  revert k. induction p as [|a p IH]; intros k H1 H2; [now exists k|].
  destruct k as [|b k]; [discriminate H1|].
  unfold String.leb in H1, H2. rewrite app_String in H2.
  cbn [String.compare] in H1, H2.
  rewrite (Ascii.compare_antisym b a) in H2.
  destruct (Ascii.compare a b) eqn:E; cbn [CompOpp] in H2.
  - apply Ascii.compare_eq_iff in E as ->.
    destruct (IH k H1 H2) as [s ->]. exists s. now rewrite app_String.
  - discriminate H2.
  - discriminate H1.
Qed.

Lemma sorted_filter {A} (R : A -> A -> Prop) (f : A -> bool) l :
  StronglySorted R l -> StronglySorted R (List.filter f l).
Proof.
  induction 1 as [|a l _ IH Hall]; cbn; [constructor|].
  destruct (f a); [|assumption]. constructor; [assumption|].
  apply List.Forall_forall. intros x [Hx _]%filter_In.
  rewrite List.Forall_forall in Hall. auto.
Qed.

Lemma sorted_snoc {A} (R : A -> A -> Prop) l a :
  StronglySorted R l -> (forall x, In x l -> R x a) -> StronglySorted R (l ++ [a]).
Proof.
  induction 1 as [|b l _ IH Hall]; intros Ha; cbn.
  - repeat constructor.
  - constructor.
    + apply IH. intros x Hx. apply Ha. now right.
    + apply List.Forall_forall. intros x [Hx|[<-|[]]]%in_app_iff.
      * rewrite List.Forall_forall in Hall. auto.
      * apply Ha. now left.
Qed.

Lemma sorted_rev {A} (R : A -> A -> Prop) l :
  StronglySorted R l -> StronglySorted (fun x y => R y x) (rev l).
Proof.
  induction 1 as [|a l _ IH Hall]; cbn; [constructor|].
  apply sorted_snoc; [assumption|].
  intros x Hx%in_rev. rewrite List.Forall_forall in Hall. auto.
Qed.

Lemma descending_stream opts db :
  ascending db ->
  descending (createReadStream {| gte := gte opts; lte := lte opts; reverse := true |} db).
Proof.
  intros H. unfold createReadStream. cbn [reverse].
  apply (sorted_rev (fun e1 e2 => String.leb (fst e1) (fst e2) = true)).
  now apply sorted_filter.
Qed.

Lemma first_visit_highest pageId stream key meta :
  descending stream ->
  first_visit pageId stream = Some (key, meta) ->
  forall key' value',
    (key', value') ∈ stream ->
    fst (normalizeTimestampVals value') = pageId ->
    String.leb key' key = true.
Proof.
  induction 1 as [|[k v] stream _ IH Hall]; [discriminate|].
  cbn [first_visit].
  destruct (decide (fst (normalizeTimestampVals v) = pageId)) as [Hid|Hne].
  - intros [= -> _] key' value' [[= -> ->]|Hin]%elem_of_cons _.
    + apply leb_refl.
    + rewrite List.Forall_forall in Hall.
      apply (Hall (key', value')). now apply list_elem_of_In.
  - intros Hf key' value' [[= -> ->]|Hin]%elem_of_cons Hid'; [contradiction|].
    eapply IH; eassumption.
Qed.

Lemma prop_lookup_Some_elem_of {A} name (o : list (string * A)) a :
  prop_lookup name o = Some a -> (name, a) ∈ o.
Proof.
  induction o as [|[n b] o IH]; cbn; [discriminate|].
  destruct (String.eqb_spec n name) as [->|_].
  - intros [= ->]. apply list_elem_of_here.
  - intros H. apply list_elem_of_further. auto.
Qed.

(** When the store lists its entries in ascending key order, the entry
    recorded for a page is made from the store entry of that page with the
    highest key of the range, whatever the limit: its [latest] is that key
    without its prefix, the page's latest timestamp in the range, unless the
    stored record has a [latest] property of its own, which then takes its
    place. *)
Theorem reverseRangeLookup_latest_is_highest (limit : option nat)
    (iteratorOpts : iteratorOpts) (db : list (string * tsval))
    (pageId : jsval) (entry : obj) :
  ascending db ->
  map_get pageId (data (reverseRangeLookup limit iteratorOpts db)) = Some entry ->
  exists key value meta,
    (key, value) ∈ db /\
    in_bounds iteratorOpts key = true /\
    normalizeTimestampVals value = (pageId, meta) /\
    (forall key' value',
        (key', value') ∈ db ->
        in_bounds iteratorOpts key' = true ->
        fst (normalizeTimestampVals value') = pageId ->
        String.leb key' key = true) /\
    (prop_lookup "latest" meta = None ->
     obj_get "latest" entry = JStr (removeKeyType key)) /\
    (prop_lookup "latest" meta <> None ->
     exists own, ("latest", own) ∈ meta /\ obj_get "latest" entry = own) /\
    (forall name, name <> "latest" ->
       (prop_lookup name entry = None <-> prop_lookup name meta = None) /\
       (forall v, prop_lookup name entry = Some v -> (name, v) ∈ meta)).
Proof.
  intros Hsorted Hget.
  set (stream := createReadStream
                   {| gte := gte iteratorOpts; lte := lte iteratorOpts;
                      reverse := true |} db).
  assert (Hfull : map_get pageId (latest_by_page stream) = Some entry).
  { destruct limit as [n|].
    - rewrite limited_data in Hget. eapply map_get_take, Hget.
    - now rewrite unlimited_data in Hget. }
  unfold latest_by_page in Hfull. rewrite record_all_get in Hfull.
  cbn [map_get] in Hfull.
  destruct (first_visit pageId stream) as [[key meta]|] eqn:Ef; [|discriminate].
  injection Hfull as <-.
  destruct (first_visit_elem _ _ _ _ Ef) as (value & Hin & Hnorm).
  apply createReadStream_elem_of in Hin as [Hdb Hb].
  assert (Hrev : forall name,
    prop_lookup name (rev meta) = None <-> prop_lookup name meta = None).
  { intros name. rewrite !prop_lookup_None, map_rev, !list_elem_of_In, <- in_rev.
    reflexivity. }
  exists key, value, meta. unfold page_entry, obj_get.
  split; [exact Hdb|]. split; [exact Hb|]. split; [exact Hnorm|]. split.
  { intros key' value' Hin' Hb' Hid.
    eapply (first_visit_highest pageId stream);
      [now apply descending_stream|eassumption| |eassumption].
    apply createReadStream_elem_of. split; [assumption|exact Hb']. }
  split; [|split].
  - intros Hnone. rewrite prop_lookup_obj_spread.
    apply Hrev in Hnone. rewrite Hnone. reflexivity.
  - intros Hown. rewrite prop_lookup_obj_spread.
    destruct (prop_lookup "latest" (rev meta)) as [own|] eqn:El.
    + exists own. split; [|reflexivity].
      apply prop_lookup_Some_elem_of in El.
      apply list_elem_of_In, in_rev. now apply list_elem_of_In.
    + apply Hrev in El. contradiction.
  - intros name Hname. rewrite prop_lookup_obj_spread.
    destruct (prop_lookup name (rev meta)) as [v|] eqn:El.
    + split.
      * split; [discriminate|]. intros Hn. apply Hrev in Hn. congruence.
      * intros w [= <-]. apply prop_lookup_Some_elem_of in El.
        apply list_elem_of_In, in_rev. now apply list_elem_of_In.
    + cbn [prop_lookup].
      destruct (String.eqb_spec "latest" name) as [<-|_]; [contradiction|].
      split; [|discriminate].
      split; [intros _; now apply Hrev|reflexivity].
Qed.

Lemma reverseRangeLookup_latest_is_highest_witness :
  ascending sorted_visits /\
  exists key value,
    (key, value) ∈ sorted_visits /\
    fst (normalizeTimestampVals value) = JStr "a" /\
    JStr "4" = JStr (removeKeyType key).
Proof.
  assert (Hsorted : ascending sorted_visits).
  { unfold ascending, sorted_visits.
    repeat (constructor; [|repeat constructor]). constructor. }
  split; [exact Hsorted|].
  destruct (reverseRangeLookup_latest_is_highest (Some 1) visit_bounds
              sorted_visits (JStr "a") [("latest", JStr "4")] Hsorted eq_refl)
    as (key & value & meta & Hin & _ & Hnorm & _ & Hlatest & _).
  exists key, value. split; [exact Hin|]. split; [now rewrite Hnorm|].
  apply Hlatest.
  unfold sorted_visits in Hin.
  repeat (apply elem_of_cons in Hin as [[= -> ->]|Hin]);
    try (vm_compute in Hnorm; injection Hnorm as <-; reflexivity);
    try discriminate Hnorm.
  inversion Hin.
Defined.

Lemma map_of_entries_fresh {K V} `{EqDecision K} (f : K -> V) (keys : list K) :
  NoDup keys ->
  map_of_entries (map (fun key => (key, f key)) keys) = map (fun key => (key, f key)) keys.
Proof.
  unfold map_of_entries. intros Hnd.
  assert (Hgen : forall m : list (K * V),
    NoDup (map_keys m ++ keys) ->
    fold_left (fun m e => map_set (fst e) (snd e) m)
      (map (fun key => (key, f key)) keys) m =
    m ++ map (fun key => (key, f key)) keys).
  { clear Hnd. induction keys as [|k keys IH]; intros m Hm; cbn [map fold_left].
    - now rewrite app_nil_r.
    - assert (Hnin : k ∉ map_keys m).
      { apply NoDup_app in Hm as (_ & Hd & _). intros Hin.
        apply (Hd _ Hin). apply list_elem_of_here. }
      cbn [fst snd]. rewrite (map_set_new _ _ _ Hnin), IH.
      + now rewrite <- app_assoc.
      + unfold map_keys in *. rewrite map_app, <- app_assoc. exact Hm. }
  apply (Hgen []). exact Hnd.
Qed.

(** The map of [termRangeLookup] lists the candidate keys in the order of
    the set, whatever the store holds; for an empty set it is empty. *)
Theorem termRangeLookup_key_order (termKey : string) (termsSet : list string)
    (db : list (string * jsval)) :
  NoDup termsSet ->
  map_keys (termRangeLookup termKey termsSet db) = termsSet /\
  (termsSet = [] -> termRangeLookup termKey termsSet db = []).
Proof.
  intros Hnd.
  assert (Hkeys : map_keys (termRangeLookup termKey termsSet db) = termsSet).
  { unfold termRangeLookup.
    rewrite (map_of_entries_fresh (fun _ => JNull) termsSet Hnd).
    rewrite term_scan_keys.
    - unfold map_keys. rewrite map_map. cbn. apply map_id.
    - intros key Hin. unfold map_keys. rewrite map_map. cbn. now rewrite map_id. }
  split; [exact Hkeys|].
  intros Hempty. subst termsSet. unfold map_keys in Hkeys.
  now apply map_eq_nil in Hkeys.
Qed.

Lemma termRangeLookup_key_order_witness :
  NoDup ["term/foo"; "term/bar"] /\
  map_keys (termRangeLookup "term/" ["term/foo"; "term/bar"] example_terms_db)
    = ["term/foo"; "term/bar"].
Proof.
  assert (Hnd : NoDup ["term/foo"; "term/bar"]).
  { apply (bool_decide_unpack _). vm_compute. exact I. }
  split; [exact Hnd|].
  exact (proj1 (termRangeLookup_key_order "term/" ["term/foo"; "term/bar"]
                  example_terms_db Hnd)).
Defined.

(** A candidate key that does not start with the prefix scanned is never
    found, even when the store holds it: it comes back as [null]. *)
Theorem termRangeLookup_other_namespace (termKey : string)
    (termsSet : list string) (db : list (string * jsval)) (key : string) :
  key ∈ termsSet ->
  startsWith termKey key = false ->
  map_get key (termRangeLookup termKey termsSet db) = Some JNull.
Proof.
  intros Hkey Hprefix. unfold termRangeLookup.
  rewrite (term_scan_get _ _ _ _ Hkey).
  rewrite (map_of_entries_get (fun _ => JNull)), decide_True by assumption.
  match goal with |- context [prop_lookup key ?l] =>
    assert (Hnone : prop_lookup key l = None); [|now rewrite Hnone] end.
  apply prop_lookup_None. intros Hin.
  apply list_elem_of_In, in_map_iff in Hin as ([k v] & Hk & Hin).
  cbn in Hk. subst k. apply in_rev, list_elem_of_In in Hin.
  apply createReadStream_elem_of in Hin as [_ Hb].
  unfold in_bounds in Hb. cbn in Hb. apply andb_true_iff in Hb as [Hlo Hhi].
  destruct (range_prefix _ _ _ Hlo Hhi) as [s Hs].
  assert (Hstarts : startsWith termKey key = true)
    by (apply startsWith_true; eauto).
  congruence.
Qed.

Lemma termRangeLookup_other_namespace_witness :
  "title/foo" ∈ ["term/foo"; "title/foo"] /\
  startsWith "term/" "title/foo" = false /\
  map_get "title/foo"
    (termRangeLookup "term/" ["term/foo"; "title/foo"] example_terms_db) = Some JNull.
Proof.
  assert (Hin : "title/foo" ∈ ["term/foo"; "title/foo"]).
  { apply (bool_decide_unpack _). vm_compute. exact I. }
  split; [exact Hin|]. split; [reflexivity|].
  exact (termRangeLookup_other_namespace "term/" ["term/foo"; "title/foo"]
           example_terms_db "title/foo" Hin eq_refl).
Defined.

End RangeFacts.

(** ** The keys of the indexed pages: [grabExistingKeys] *)

Module PageKeys.
Import Range RangeFacts.

(** A page document as [grabExistingKeys] looks at it: its [bookmarks] set,
    elements in insertion order, when it has one, and its other
    properties. *)
Record pageDoc := {
  page_bookmarks : option (list string);
  page_props : obj;
}.

(** [value && value.bookmarks && value.bookmarks.size], as a condition; a
    stored value that is [null] is [None]. *)
Definition has_bookmarks (value : option pageDoc) : bool :=
  match value with
  | Some doc =>
      match page_bookmarks doc with
      | Some bookmarks => negb (length bookmarks =? 0)%nat
      | None => false
      end
  | None => false
  end.

(** [set.add(x)]. *)
Definition set_add (x : string) (s : list string) : list string :=
  if set_has x s then s else s ++ [x].

(** [new Set(array)]. *)
Definition set_of_array (array : list string) : list string :=
  fold_left (fun s x => set_add x s) array [].

(** [s.replace(pattern, replacement)] for a string pattern and a
    replacement without [$]: the first occurrence is replaced. *)
Fixpoint replace_first (pattern replacement s : string) : string :=
  match strip_prefix pattern s with
  | Some rest => replacement +:+ rest
  | None =>
      match s with
      | EmptyString => EmptyString
      | String c s' => String c (replace_first pattern replacement s')
      end
  end.

(** [trim]: [key => key.replace('page/', '')]. *)
Definition trim (key : string) : string := replace_first "page/" "" key.

Record existingKeys := {
  histKeys : list string;
  bmKeys : list string;
}.

(** The ['data'] handler of [grabExistingKeys]. *)
Definition grab_on_data (keys : existingKeys) (entry : string * option pageDoc)
  : existingKeys :=
  let (key, value) := entry in
  {| histKeys := set_add key (histKeys keys);
     bmKeys := if has_bookmarks value then set_add key (bmKeys keys)
               else bmKeys keys |}.

(** The range of the page documents. *)
Definition page_range : iteratorOpts :=
  {| gte := Some "page/"; lte := Some ("page/" +:+ MAX_SORT_CHAR); reverse := false |}.

(** [grabExistingKeys(trimPrefix)]: what the promise resolves to at the
    ['end'] of the stream. *)
Definition grabExistingKeys (trimPrefix : bool)
    (db : list (string * option pageDoc)) : existingKeys :=
  let scanned :=
    fold_left grab_on_data (createReadStream page_range db)
      {| histKeys := []; bmKeys := [] |} in
  if trimPrefix then
    {| histKeys := set_of_array (map trim (histKeys scanned));
       bmKeys := set_of_array (map trim (bmKeys scanned)) |}
  else scanned.

Definition example_pages : list (string * option pageDoc) :=
  [ ("page/a", Some {| page_bookmarks := Some []; page_props := [] |});
    ("page/b", Some {| page_bookmarks := Some ["bookmark/1"; "bookmark/2"];
                       page_props := [] |});
    ("term/a", None) ].

Lemma set_add_elem_of x y s : x ∈ set_add y s <-> x = y \/ x ∈ s.
Proof.
  unfold set_add, set_has. case_bool_decide as Hy.
  - split; [auto|]. intros [->|]; assumption.
  - rewrite elem_of_app, list_elem_of_singleton. tauto.
Qed.

Lemma set_of_array_elem_of x array : x ∈ set_of_array array <-> x ∈ array.
Proof.
  unfold set_of_array.
  assert (Hgen : forall s, x ∈ fold_left (fun s x => set_add x s) array s
                           <-> x ∈ s \/ x ∈ array).
  { induction array as [|y array IH]; intros s; cbn [fold_left].
    - split; [auto|]. intros [|H]; [assumption|inversion H].
    - rewrite IH, set_add_elem_of, elem_of_cons. tauto. }
  rewrite Hgen. split; [|auto]. intros [H|]; [inversion H|assumption].
Qed.

Lemma grab_scan stream keys key :
  (key ∈ histKeys (fold_left grab_on_data stream keys) <->
   key ∈ histKeys keys \/ exists value, (key, value) ∈ stream) /\
  (key ∈ bmKeys (fold_left grab_on_data stream keys) <->
   key ∈ bmKeys keys \/
   exists value, (key, value) ∈ stream /\ has_bookmarks value = true).
Proof.
  revert keys. induction stream as [|[k v] stream IH]; intros keys; cbn [fold_left].
  - split; (split; [auto|]); intros [|(value & H)]; try assumption.
    + inversion H.
    + destruct H as [H _]. inversion H.
  - destruct (IH (grab_on_data keys (k, v))) as [-> ->].
    cbn [grab_on_data histKeys bmKeys]. split.
    + rewrite set_add_elem_of. split.
      * intros [[->|]|(value & Hin)]; [right; exists v; apply list_elem_of_here
                                       |now left|].
        right. exists value. now apply list_elem_of_further.
      * intros [|(value & [[= -> ->]|Hin]%elem_of_cons)]; [tauto|tauto|].
        right. eauto.
    + destruct (has_bookmarks v) eqn:Ev.
      * rewrite set_add_elem_of. split.
        -- intros [[->|]|(value & Hin & Hb)]; [|now left|].
           ++ right. exists v. split; [apply list_elem_of_here|assumption].
           ++ right. exists value. split; [now apply list_elem_of_further|assumption].
        -- intros [|(value & [[= -> ->]|Hin]%elem_of_cons & Hb)]; [tauto|tauto|].
           right. eauto.
      * split.
        -- intros [|(value & Hin & Hb)]; [now left|].
           right. exists value. split; [now apply list_elem_of_further|assumption].
        -- intros [|(value & [[= -> ->]|Hin]%elem_of_cons & Hb)];
             [tauto|congruence|]. right. eauto.
Qed.



(** Every bookmarked key is a history key, trimmed or not. *)
Theorem grabExistingKeys_bookmarks_in_history (trimPrefix : bool)
    (db : list (string * option pageDoc)) (key : string) :
  key ∈ bmKeys (grabExistingKeys trimPrefix db) ->
  key ∈ histKeys (grabExistingKeys trimPrefix db).
Proof.
  unfold grabExistingKeys.
  set (stream := createReadStream page_range db).
  set (start := {| histKeys := []; bmKeys := [] |}).
  assert (Hsub : forall k, k ∈ bmKeys (fold_left grab_on_data stream start) ->
                           k ∈ histKeys (fold_left grab_on_data stream start)).
  { intros k Hk. destruct (grab_scan stream start k) as [Hh Hb].
    apply Hb in Hk as [Hk|(value & Hin & _)]; [inversion Hk|].
    apply Hh. right. eauto. }
  destruct trimPrefix; cbn [histKeys bmKeys]; [|apply Hsub].
  rewrite !set_of_array_elem_of, !list_elem_of_In, !in_map_iff.
  intros (k & <- & Hk). exists k. split; [reflexivity|].
  now apply list_elem_of_In, Hsub, list_elem_of_In.
Qed.

Lemma grabExistingKeys_bookmarks_in_history_witness :
  "b" ∈ bmKeys (grabExistingKeys true example_pages) /\
  "b" ∈ histKeys (grabExistingKeys true example_pages).
Proof.
  assert (Hb : "b" ∈ bmKeys (grabExistingKeys true example_pages)).
  { apply (bool_decide_unpack _). vm_compute. exact I. }
  split; [exact Hb|].
  exact (grabExistingKeys_bookmarks_in_history true example_pages "b" Hb).
Defined.


End PageKeys.

(** ** More on the point lookups *)

Module LookupFacts.
Import Lookup.

Lemma map_of_entries_NoDup {K V} `{EqDecision K} (entries : list (K * V)) :
  NoDup (map fst entries) -> map_of_entries entries = entries.
Proof.
  unfold map_of_entries. intros Hnd.
  assert (Hgen : forall m : list (K * V),
    NoDup (map_keys m ++ map fst entries) ->
    fold_left (fun m e => map_set (fst e) (snd e) m) entries m = m ++ entries).
  { clear Hnd. induction entries as [|[k v] entries IH]; intros m Hm;
      cbn [map fold_left fst snd].
    - now rewrite app_nil_r.
    - assert (Hnin : k ∉ map_keys m).
      { apply NoDup_app in Hm as (_ & Hd & _). intros Hin.
        apply (Hd _ Hin). apply list_elem_of_here. }
      rewrite (map_set_new _ _ _ Hnin), IH.
      + now rewrite <- app_assoc.
      + unfold map_keys in *. rewrite map_app, <- app_assoc. exact Hm. }
  apply (Hgen []). exact Hnd.
Qed.

(** For an array of distinct keys, the map a batched lookup resolves to
    lists the keys in the order they were asked for. *)
Theorem initLookupByKeys_request_order
    (index_get : string -> bool -> Result jsval) (opts : option lookupOpts)
    (keys : list string) (found : list (string * jsval)) :
  NoDup keys ->
  initLookupByKeys index_get opts (ManyKeys keys) = Ok found ->
  map_keys found = keys.
Proof.
  intros Hnd. unfold initLookupByKeys.
  set (single := initSingleLookup index_get _).
  destruct (mapM _ keys) as [entries|e] eqn:Em; cbn; [|discriminate].
  intros [= <-]. apply mapM_Ok in Em.
  assert (Hkeys : map fst entries = keys).
  { induction Em as [|key y keys' ys Hy _ IH]; [reflexivity|].
    destruct (single key) as [v|e]; cbn in Hy; [|discriminate].
    injection Hy as <-. cbn. f_equal. apply IH.
    now apply NoDup_cons in Hnd as [_ ?]. }
  rewrite map_of_entries_NoDup by now rewrite Hkeys.
  exact Hkeys.
Qed.

Lemma initLookupByKeys_request_order_witness :
  NoDup ["nope"; "page/abc"] /\
  initLookupByKeys (db_get example_db) None (ManyKeys ["nope"; "page/abc"])
    = Ok [("nope", JNull); ("page/abc", JObj [("url", JStr "example.com")])] /\
  map_keys [("nope", JNull); ("page/abc", JObj [("url", JStr "example.com")])]
    = ["nope"; "page/abc"].
Proof.
  assert (Hnd : NoDup ["nope"; "page/abc"]).
  { apply (bool_decide_unpack _). vm_compute. exact I. }
  split; [exact Hnd|]. split; [reflexivity|].
  exact (initLookupByKeys_request_order (db_get example_db) None
           ["nope"; "page/abc"] _ Hnd eq_refl).
Defined.


End LookupFacts.

(** ** More on [augmentIndexLookupDoc] *)

Module FacadeFacts.
Import Facade.

(** The document [augmentIndexLookupDoc] returns has the same [visits] and
    [bookmarks] and every other property of the document unchanged, and a
    string for [latest], which replaces a [latest] the document had. *)
Theorem augmentIndexLookupDoc_keeps_fields (doc doc' : IndexLookupDoc) :
  augmentIndexLookupDoc doc = Ok doc' ->
  visits doc' = visits doc /\
  bookmarks doc' = bookmarks doc /\
  (forall name, name <> "latest" ->
     obj_get name (others doc') = obj_get name (others doc)) /\
  exists latest, obj_get "latest" (others doc') = JStr latest.
Proof.
  unfold augmentIndexLookupDoc.
  destruct (removeKeyType_of (getLatestVisitOrBookmark doc)) as [latest|e];
    cbn; [|discriminate].
  intros [= <-]. cbn. unfold obj_get. repeat split.
  - intros name Hname. rewrite prop_lookup_obj_set.
    destruct (String.eqb_spec "latest" name); [congruence|reflexivity].
  - exists latest. rewrite prop_lookup_obj_set. reflexivity.
Qed.

Lemma augmentIndexLookupDoc_keeps_fields_witness :
  obj_get "url"
    (others {| visits := ["visit/7"]; bookmarks := [];
               others := [("latest", JStr "old"); ("url", JStr "u")] |}) =
  JStr "u" /\
  augmentIndexLookupDoc
    {| visits := ["visit/7"]; bookmarks := [];
       others := [("latest", JStr "old"); ("url", JStr "u")] |} =
  Ok {| visits := ["visit/7"]; bookmarks := [];
        others := [("latest", JStr "7"); ("url", JStr "u")] |}.
Proof.
  destruct (augmentIndexLookupDoc_keeps_fields
              {| visits := ["visit/7"]; bookmarks := [];
                 others := [("latest", JStr "old"); ("url", JStr "u")] |}
              {| visits := ["visit/7"]; bookmarks := [];
                 others := [("latest", JStr "7"); ("url", JStr "u")] |}
              eq_refl) as (_ & _ & H & _).
  split; [|reflexivity].
  symmetry. apply (H "url"). discriminate.
Defined.

(** When the sets hold keys made by [keyGen], the [latest] property of the
    returned document is the raw timestamp of the last visit, or of the last
    bookmark when there is no visit. *)
Theorem augmentIndexLookupDoc_timestamp (doc : IndexLookupDoc)
    (namespace : string) (encode : string -> string) (timestamp : string) :
  prop_lookup namespace keyGen = Some encode ->
  last (visits doc) = Some (encode timestamp) \/
  (visits doc = [] /\ last (bookmarks doc) = Some (encode timestamp)) ->
  exists doc',
    augmentIndexLookupDoc doc = Ok doc' /\
    obj_get "latest" (others doc') = JStr timestamp /\
    visits doc' = visits doc /\
    bookmarks doc' = bookmarks doc.
Proof.
  intros Hkey Hlast.
  destruct (keyGen_encoder_form _ _ Hkey) as [Hns Hform].
  assert (Hdecode : removeKeyType (encode timestamp) = timestamp)
    by (rewrite Hform; now apply removeKeyType_known).
  assert (Hget : getLatestVisitOrBookmark doc = Some (encode timestamp)).
  { rewrite getLatestVisitOrBookmark_last.
    destruct Hlast as [->|[-> ->]]; reflexivity. }
  destruct (augmentIndexLookupDoc_Ok doc _ Hget)
    as (doc' & Hok & Hlatest & Hv & Hb & _).
  exists doc'. rewrite Hdecode in Hlatest. auto.
Qed.

Lemma augmentIndexLookupDoc_timestamp_witness :
  prop_lookup "bookmark" keyGen = Some (fun key => "bookmark/" +:+ key) /\
  exists doc',
    augmentIndexLookupDoc
      {| visits := [];
         bookmarks := ["bookmark/3"; "bookmark/1512345678901"];
         others := [("latest", JStr "old")] |} = Ok doc' /\
    obj_get "latest" (others doc') = JStr "1512345678901".
Proof.
  split; [reflexivity|].
  destruct (augmentIndexLookupDoc_timestamp
              {| visits := [];
                 bookmarks := ["bookmark/3"; "bookmark/1512345678901"];
                 others := [("latest", JStr "old")] |}
              "bookmark" (fun key => "bookmark/" +:+ key) "1512345678901"
              eq_refl)
    as (doc' & Hok & Hlatest & _).
  { right. split; reflexivity. }
  exists doc'. split; [exact Hok|exact Hlatest].
Defined.

End FacadeFacts.
